(** * stack_string: a fixed-capacity string and a fixed-buffer allocator

    Shallow embedding of [include/stack_string.hpp] and
    [include/fixed_buf_allocator.hpp].

    Conventions:
    - [std::size_t] is a 64-bit unsigned integer, modelled as [Z] with the
      wrap-around of every arithmetic operation written out ([size_wrap]);
    - [char] is [Byte.byte]; arrays and character ranges are [list byte];
    - an access outside an array, or a read that runs off the end of an
      unterminated C string, is undefined behaviour: the operation returns
      [None].  A result [Some _] therefore also says that the call stayed
      inside the storage it was given;
    - an object whose members are not initialised by its constructor starts
      from indeterminate storage, passed to the constructor as [init]. *)

From Stdlib Require Import ZArith List Lia Decimal DecimalZ.
From Stdlib.Strings Require Import Byte.
From stdpp Require Import base option list gmap.

Local Open Scope Z_scope.

(** ** [std::size_t] *)

Definition size_bits : Z := 64.
Definition SIZE_MAX : Z := 2 ^ size_bits - 1.
Definition size_wrap (z : Z) : Z := z mod 2 ^ size_bits.
Definition size_add (a b : Z) : Z := size_wrap (a + b).
Definition size_sub (a b : Z) : Z := size_wrap (a - b).
Definition size_mul (a b : Z) : Z := size_wrap (a * b).

(** ** Character arrays *)

(** [m[i] = b] *)
Definition store (m : list byte) (i : Z) (b : byte) : option (list byte) :=
  if decide (0 <= i < Z.of_nat (length m))
  then Some (<[Z.to_nat i := b]> m)
  else None.

(** The characters of [[first, first + count)], as [std::copy] and
    [std::string_view] read them. *)
Definition read_range (m : list byte) (first count : Z) : option (list byte) :=
  if decide (0 <= first /\ 0 <= count /\ first + count <= Z.of_nat (length m))
  then Some (take (Z.to_nat count) (drop (Z.to_nat first) m))
  else None.

(** The output side of [std::copy] and [std::fill]: [src] is written to
    [[pos, pos + length src)]. *)
Definition write_range (m : list byte) (pos : Z) (src : list byte)
  : option (list byte) :=
  if decide (0 <= pos /\ pos + Z.of_nat (length src) <= Z.of_nat (length m))
  then Some (take (Z.to_nat pos) m ++ src
             ++ drop (Z.to_nat pos + length src) m)
  else None.

(** [std::strlen]: the index of the first terminator of the memory [str]
    points to; running off the end of that memory is undefined. *)
Fixpoint strlen (mem : list byte) : option Z :=
  match mem with
  | [] => None
  | c :: rest =>
      if Byte.eqb c x00 then Some 0 else Z.succ <$> strlen rest
  end.

(** ** [std::to_chars] for integers, base 10

    The standard's contract: on success the canonical decimal digits (with a
    leading minus sign for a negative value) are written at [first] and the
    returned pointer is one past them; when they do not fit in
    [[first, last)] the result is [value_too_large], the pointer is [last]
    and the contents of the range are unspecified.  The unspecified contents
    are the parameter [scratch]: whatever part of it fits is what the range
    holds afterwards ([scratch = []] is an implementation that writes
    nothing before it gives up). *)

Fixpoint uint_chars (u : Decimal.uint) : list byte :=
  match u with
  | Nil => []
  | D0 r => x30 :: uint_chars r
  | D1 r => x31 :: uint_chars r
  | D2 r => x32 :: uint_chars r
  | D3 r => x33 :: uint_chars r
  | D4 r => x34 :: uint_chars r
  | D5 r => x35 :: uint_chars r
  | D6 r => x36 :: uint_chars r
  | D7 r => x37 :: uint_chars r
  | D8 r => x38 :: uint_chars r
  | D9 r => x39 :: uint_chars r
  end.

Definition decimal_chars (value : Z) : list byte :=
  match Z.to_int value with
  | Decimal.Pos u => uint_chars u
  | Decimal.Neg u => x2d :: uint_chars u
  end.

(** [ec == std::errc()] *)
Inductive errc := errc_ok | value_too_large.

Record to_chars_result := { ptr : Z; ec : errc }.

Definition to_chars (scratch : list byte) (buf : list byte)
    (first last : Z) (value : Z) : option (list byte * to_chars_result) :=
  if decide (0 <= first <= last /\ last <= Z.of_nat (length buf)) then
    let digits := decimal_chars value in
    if decide (Z.of_nat (length digits) <= last - first) then
      buf' ← write_range buf first digits;
      Some (buf', {| ptr := first + Z.of_nat (length digits); ec := errc_ok |})
    else
      buf' ← write_range buf first (take (Z.to_nat (last - first)) scratch);
      Some (buf', {| ptr := last; ec := value_too_large |})
  else None.

(** ** [StackString<N>] *)

Record StackString := { m_data : list byte; m_size : Z }.

Section stack_string.
(** The capacity, a template parameter; [m_data] has [N + 1] elements. *)
Variable N : Z.

(** *** Constructors *)

(** [StackString()] *)
Definition ctor_default (init : list byte) : option StackString :=
  d ← store init 0 x00;
  Some {| m_data := d; m_size := 0 |}.

(** *** Append *)

(** [append(const char* str)]; [None] is the null pointer, [Some mem] a
    pointer to the characters [mem]. *)
Definition append_cstr (s : StackString) (str : option (list byte))
  : option StackString :=
  match str with
  | None => Some s
  | Some mem =>
      len ← strlen mem;
      let space_available := size_sub N (m_size s) in
      let to_copy :=
        if len >? space_available then space_available else len in
      src ← read_range mem 0 to_copy;
      d ← write_range (m_data s) (m_size s) src;
      let size' := size_add (m_size s) to_copy in
      d' ← store d size' x00;
      Some {| m_data := d'; m_size := size' |}
  end.

(** [append(std::string_view sv)] *)
Definition append_sv (s : StackString) (sv : list byte)
  : option StackString :=
  let space_available := size_sub N (m_size s) in
  let to_copy :=
    if Z.of_nat (length sv) >? space_available
    then space_available else Z.of_nat (length sv) in
  src ← read_range sv 0 to_copy;
  d ← write_range (m_data s) (m_size s) src;
  let size' := size_add (m_size s) to_copy in
  d' ← store d size' x00;
  Some {| m_data := d'; m_size := size' |}.

(** [append(char c)] *)
Definition append_char (s : StackString) (c : byte) : option StackString :=
  if m_size s >=? N then Some s
  else
    d ← store (m_data s) (m_size s) c;
    let size' := size_add (m_size s) 1 in
    d' ← store d size' x00;
    Some {| m_data := d'; m_size := size' |}.

(** [append(T value)] for an integral [T] *)
Definition append_int (scratch : list byte) (s : StackString) (value : Z)
  : option StackString :=
  '(d, r) ← to_chars scratch (m_data s) (m_size s) N value;
  match ec r with
  | errc_ok =>
      let size' := ptr r in
      d' ← store d size' x00;
      Some {| m_data := d'; m_size := size' |}
  | value_too_large => Some {| m_data := d; m_size := m_size s |}
  end.

(** The argument kinds [append] is overloaded on, and the overload each
    one selects. *)
Inductive arg :=
| arg_cstr (str : option (list byte))
| arg_sv (sv : list byte)
| arg_char (c : byte)
| arg_int (value : Z).

Definition append (scratch : list byte) (s : StackString) (a : arg)
  : option StackString :=
  match a with
  | arg_cstr str => append_cstr s str
  | arg_sv sv => append_sv s sv
  | arg_char c => append_char s c
  | arg_int value => append_int scratch s value
  end.

(** [StackString(const char* str)] *)
Definition ctor_cstr (init : list byte) (str : option (list byte))
  : option StackString :=
  append_cstr {| m_data := init; m_size := 0 |} str.

(** [StackString(std::string_view sv)] *)
Definition ctor_sv (init : list byte) (sv : list byte)
  : option StackString :=
  append_sv {| m_data := init; m_size := 0 |} sv.

(** [StackString(Args&&... args)], more than one argument: the fold
    expression appends them from left to right. *)
Fixpoint append_all (scratch : list byte) (s : StackString)
    (args : list arg) : option StackString :=
  match args with
  | [] => Some s
  | a :: rest => s' ← append scratch s a; append_all scratch s' rest
  end.

Definition ctor_variadic (scratch : list byte) (init : list byte)
    (args : list arg) : option StackString :=
  d ← store init 0 x00;
  append_all scratch {| m_data := d; m_size := 0 |} args.

(** *** Operators: each one returns what the [append] it calls returns *)

Definition operator_plus_eq_cstr (s : StackString)
    (str : option (list byte)) : option StackString :=
  append_cstr s str.

Definition operator_plus_eq_sv (s : StackString) (sv : list byte)
  : option StackString :=
  append_sv s sv.

Definition operator_plus_eq_char (s : StackString) (c : byte)
  : option StackString :=
  append_char s c.

Definition operator_plus_eq_int (scratch : list byte) (s : StackString)
    (value : Z) : option StackString :=
  append_int scratch s value.

(** [operator+=], by the kind of its argument *)
Definition operator_plus_eq (scratch : list byte) (s : StackString)
    (a : arg) : option StackString :=
  match a with
  | arg_cstr str => operator_plus_eq_cstr s str
  | arg_sv sv => operator_plus_eq_sv s sv
  | arg_char c => operator_plus_eq_char s c
  | arg_int value => operator_plus_eq_int scratch s value
  end.

(** [operator<<(T&& value)] forwards [value] to the overload set *)
Definition operator_shl (scratch : list byte) (s : StackString) (a : arg)
  : option StackString :=
  append scratch s a.

(** *** Modifiers *)

(** [clear()] *)
Definition clear (s : StackString) : option StackString :=
  d ← store (m_data s) 0 x00;
  Some {| m_data := d; m_size := 0 |}.

(** [resize(count, ch)] *)
Definition resize (s : StackString) (count : Z) (ch : byte)
  : option StackString :=
  let count := if count >? N then N else count in
  d ← (if count >? m_size s
       then write_range (m_data s) (m_size s)
              (replicate (Z.to_nat (count - m_size s)) ch)
       else Some (m_data s));
  d' ← store d count x00;
  Some {| m_data := d'; m_size := count |}.

(** *** Copy and move *)

(** [m_size(other.m_size)] followed by
    [std::copy(other.m_data, other.m_data + m_size + 1, m_data)], on the
    storage [dst] of the object being written. *)
Definition copy_from (dst : list byte) (other : StackString)
  : option StackString :=
  let size' := m_size other in
  src ← read_range (m_data other) 0 (size' + 1);
  d ← write_range dst 0 src;
  Some {| m_data := d; m_size := size' |}.

(** [StackString(const StackString& other)] *)
Definition ctor_copy (init : list byte) (other : StackString)
  : option StackString :=
  copy_from init other.

(** [StackString(StackString&& other)]: the new object and what is left
    of [other]. *)
Definition ctor_move (init : list byte) (other : StackString)
  : option (StackString * StackString) :=
  s ← copy_from init other;
  other' ← clear other;
  Some (s, other').

(** Assignment compares the addresses of its two operands, so the objects
    live in a store indexed by address. *)

(** [operator=(const StackString& other)] *)
Definition copy_assign (h : gmap nat StackString) (this other : nat)
  : option (gmap nat StackString) :=
  t ← h !! this;
  o ← h !! other;
  if decide (this <> other) then
    t' ← copy_from (m_data t) o;
    Some (<[this := t']> h)
  else Some h.

(** [operator=(StackString&& other)] *)
Definition move_assign (h : gmap nat StackString) (this other : nat)
  : option (gmap nat StackString) :=
  t ← h !! this;
  o ← h !! other;
  if decide (this <> other) then
    t' ← copy_from (m_data t) o;
    o' ← clear o;
    Some (<[other := o']> (<[this := t']> h))
  else Some h.

(** *** Observers *)

Definition size (s : StackString) : Z := m_size s.
Definition available (s : StackString) : Z := size_sub N (m_size s).

(** [operator std::string_view()]: the characters [[0, m_size)] *)
Definition view (s : StackString) : list byte :=
  take (Z.to_nat (m_size s)) (m_data s).

(** [operator[](pos)] *)
Definition at_ (s : StackString) (pos : Z) : option byte :=
  if decide (0 <= pos) then m_data s !! Z.to_nat pos else None.

End stack_string.

(** *** The class invariant *)

(** A capacity for which [char m_data[N + 1]] can be declared. *)
Definition valid_capacity (N : Z) : Prop := 0 <= N < SIZE_MAX.

(** [m_data] has its [N + 1] elements and [m_size] is within the capacity. *)
Definition wf (N : Z) (s : StackString) : Prop :=
  0 <= m_size s <= N /\ Z.of_nat (length (m_data s)) = N + 1.

(** [m_data[m_size] == '\0'] *)
Definition terminated (s : StackString) : Prop :=
  at_ s (m_size s) = Some x00.

(** A pointer argument that points to a terminated character sequence. *)
Definition c_string (mem : list byte) : Prop := is_Some (strlen mem).

(** The number of characters an append of [len] characters copies. *)
Definition copied (N : Z) (s : StackString) (len : Z) : Z :=
  Z.min len (N - m_size s).


(** *** The states a program can observe

    A [StackString<N>] comes out of a constructor, run on storage of
    [N + 1] characters, and is changed by its own operations only. *)
Inductive reachable (N : Z) : StackString -> Prop :=
| reach_ctor_default init s :
    Z.of_nat (length init) = N + 1 ->
    ctor_default init = Some s -> reachable N s
| reach_ctor_cstr init str s :
    Z.of_nat (length init) = N + 1 ->
    ctor_cstr N init str = Some s -> reachable N s
| reach_ctor_sv init sv s :
    Z.of_nat (length init) = N + 1 ->
    ctor_sv N init sv = Some s -> reachable N s
| reach_ctor_variadic scratch init args s :
    Z.of_nat (length init) = N + 1 ->
    ctor_variadic N scratch init args = Some s -> reachable N s
| reach_ctor_copy init o s :
    Z.of_nat (length init) = N + 1 -> reachable N o ->
    ctor_copy init o = Some s -> reachable N s
| reach_ctor_move init o s o' :
    Z.of_nat (length init) = N + 1 -> reachable N o ->
    ctor_move init o = Some (s, o') -> reachable N s
| reach_moved_from init o s o' :
    Z.of_nat (length init) = N + 1 -> reachable N o ->
    ctor_move init o = Some (s, o') -> reachable N o'
| reach_assign t o t' :
    reachable N t -> reachable N o ->
    copy_from (m_data t) o = Some t' -> reachable N t'
| reach_append scratch s a s' :
    reachable N s -> append N scratch s a = Some s' -> reachable N s'
| reach_clear s s' :
    reachable N s -> clear s = Some s' -> reachable N s'
| reach_resize s count ch s' :
    reachable N s -> 0 <= count <= SIZE_MAX ->
    resize N s count ch = Some s' -> reachable N s'.

(** ** [FixedBufAllocator<T>] *)

(** A pointer is null or an offset into a block of memory. *)
Inductive pointer :=
| nullptr
| addr (block : nat) (offset : Z).

Definition pointer_eqb (p q : pointer) : bool :=
  match p, q with
  | nullptr, nullptr => true
  | addr b1 o1, addr b2 o2 => Nat.eqb b1 b2 && Z.eqb o1 o2
  | _, _ => false
  end.

(** [p + n] on a [char*] *)
Definition pointer_add (p : pointer) (n : Z) : pointer :=
  match p with
  | nullptr => nullptr
  | addr b o => addr b (o + n)
  end.

(** [if (p)] *)
Definition pointer_to_bool (p : pointer) : bool :=
  match p with
  | nullptr => false
  | addr _ _ => true
  end.

Record FixedBufAllocator :=
  { m_buffer : pointer; m_capacity : Z; m_used : Z }.

(** [FixedBufAllocator(void* buffer, std::size_t capacity)] *)
Definition alloc_ctor (buffer : pointer) (capacity : Z) : FixedBufAllocator :=
  {| m_buffer := buffer; m_capacity := capacity; m_used := 0 |}.

(** [FixedBufAllocator(const FixedBufAllocator<U>& other)], the constructor
    behind [rebind]: the element type changes, the three members are
    copied. *)
Definition alloc_rebind (other : FixedBufAllocator) : FixedBufAllocator :=
  {| m_buffer := m_buffer other;
     m_capacity := m_capacity other;
     m_used := m_used other |}.

(** [allocate(n)], for an element type of [sizeof_T] bytes: the returned
    pointer and the allocator afterwards. *)
Definition allocate (sizeof_T : Z) (a : FixedBufAllocator) (n : Z)
  : pointer * FixedBufAllocator :=
  let bytes := size_mul n sizeof_T in
  if pointer_to_bool (m_buffer a)
     && (size_add (m_used a) bytes <=? m_capacity a)
  then
    let result := pointer_add (m_buffer a) (m_used a) in
    (result, {| m_buffer := m_buffer a;
                m_capacity := m_capacity a;
                m_used := size_add (m_used a) bytes |})
  else (nullptr, a).

(** [deallocate(p, n)] *)
Definition deallocate (a : FixedBufAllocator) (p : pointer) (n : Z)
  : FixedBufAllocator := a.

(** Member access.  [m_buffer], [m_capacity] and [m_used] are private.  The
    class declares every [FixedBufAllocator<U>] a friend, and nothing else:
    code of the class template may read the members of any instance, code
    at namespace scope may not, and a program in which it does is
    ill-formed.  Such a read has no value: [None]. *)
Inductive access := from_FixedBufAllocator | from_namespace_scope.

Definition read_m_buffer (from : access) (a : FixedBufAllocator)
  : option pointer :=
  match from with
  | from_FixedBufAllocator => Some (m_buffer a)
  | from_namespace_scope => None
  end.

(** [a.m_buffer == b.m_buffer], the body of [operator==], in code with the
    access [from]. *)
Definition compare_buffers (from : access) (a b : FixedBufAllocator)
  : option bool :=
  pa ← read_m_buffer from a;
  pb ← read_m_buffer from b;
  Some (pointer_eqb pa pb).

(** [operator==] and [operator!=]: function templates at namespace scope,
    not friends of the class. *)
Definition alloc_eq (a b : FixedBufAllocator) : option bool :=
  compare_buffers from_namespace_scope a b.

Definition alloc_ne (a b : FixedBufAllocator) : option bool :=
  negb <$> alloc_eq a b.

(** A call a container makes on its allocator, and a run of such calls. *)
Inductive alloc_op :=
| op_allocate (n : Z)
| op_deallocate (p : pointer) (n : Z).

Definition alloc_step (sizeof_T : Z) (a : FixedBufAllocator) (o : alloc_op)
  : FixedBufAllocator :=
  match o with
  | op_allocate n => snd (allocate sizeof_T a n)
  | op_deallocate p n => deallocate a p n
  end.

Definition alloc_run (sizeof_T : Z) (a : FixedBufAllocator)
    (ops : list alloc_op) : FixedBufAllocator :=
  foldl (alloc_step sizeof_T) a ops.

(** ** Concrete strings used in the examples below *)

(** The string "ab" filling a [StackString<2>]. *)
Definition ab : StackString := {| m_data := [x61; x62; x00]; m_size := 2 |}.

(** The string "abc" in a [StackString<8>], the unused tail still holding
    the bytes the storage started with. *)
Definition abc8 : StackString :=
  {| m_data := [x61; x62; x63; x00; xff; xff; xff; xff; xff]; m_size := 3 |}.

(** The characters "1234567890". *)
Definition digits10 : list byte :=
  [x31; x32; x33; x34; x35; x36; x37; x38; x39; x30].

(** ** The rest of the [StackString<N>] interface *)

(** [max_integer_decimal_chars] *)
Definition max_integer_decimal_chars : Z := 20.

(** [empty()], [max_size()], [c_str()]; the pointer [c_str] returns sees the
    whole array. *)
Definition empty (s : StackString) : bool := m_size s =? 0.
Definition max_size (N : Z) (s : StackString) : Z := N.
Definition c_str (s : StackString) : list byte := m_data s.

(** [operator==] of two [std::string_view]s: the same size and the same
    characters. *)
Fixpoint sv_eqb (a b : list byte) : bool :=
  match a, b with
  | [], [] => true
  | x :: a', y :: b' => Byte.eqb x y && sv_eqb a' b'
  | _, _ => false
  end.

(** [operator==(const StackString& other)] and [operator!=] *)
Definition operator_eq (s other : StackString) : bool :=
  sv_eqb (view s) (view other).
Definition operator_ne (s other : StackString) : bool :=
  negb (operator_eq s other).

(** [operator==(std::string_view sv)] and [operator!=] *)
Definition operator_eq_sv (s : StackString) (sv : list byte) : bool :=
  sv_eqb (view s) sv.
Definition operator_ne_sv (s : StackString) (sv : list byte) : bool :=
  negb (operator_eq_sv s sv).

(** [operator==(const char* str)] and [operator!=]: [str] becomes a
    [std::string_view] of [strlen(str)] characters, which is undefined for
    a null pointer. *)
Definition operator_eq_cstr (s : StackString) (str : option (list byte))
  : option bool :=
  mem ← str;
  len ← strlen mem;
  Some (sv_eqb (view s) (take (Z.to_nat len) mem)).
Definition operator_ne_cstr (s : StackString) (str : option (list byte))
  : option bool :=
  negb <$> operator_eq_cstr s str.

(** [s = str] for a [const char* str], as the examples write it: there is
    no assignment from a pointer, so a temporary is constructed from [str]
    (on storage [init], at the unused address [tmp]), move-assigned to
    [this] and destroyed. *)
Definition assign_cstr (N : Z) (h : gmap nat StackString) (this tmp : nat)
    (init : list byte) (str : option (list byte))
  : option (gmap nat StackString) :=
  t ← ctor_cstr N init str;
  h' ← move_assign (<[tmp := t]> h) this tmp;
  Some (delete tmp h').

(** The characters an argument of [append] stands for, when it is not an
    integer. *)
Definition arg_chars (a : arg) : option (list byte) :=
  match a with
  | arg_cstr None => Some []
  | arg_cstr (Some mem) => len ← strlen mem; Some (take (Z.to_nat len) mem)
  | arg_sv sv => Some sv
  | arg_char c => Some [c]
  | arg_int _ => None
  end.

(** ** More concrete values for the examples *)

(** An empty [StackString<32>] on zeroed storage. *)
Definition blank32 : StackString :=
  {| m_data := replicate 33 x00; m_size := 0 |}.

(** A [FixedBufAllocator] over a 16-byte buffer, nothing handed out yet. *)
Definition alloc16 : FixedBufAllocator := alloc_ctor (addr 0 0) 16.

(** * Properties *)

(** ** [std::size_t] arithmetic that does not wrap *)

Lemma size_wrap_small z : 0 <= z <= SIZE_MAX -> size_wrap z = z.
Proof.
  unfold size_wrap, SIZE_MAX. intros H. apply Z.mod_small. lia.
Qed.

Lemma size_wrap_range z : 0 <= size_wrap z <= SIZE_MAX.
Proof.
  unfold size_wrap, SIZE_MAX.
  pose proof (Z.mod_pos_bound z (2 ^ size_bits) ltac:(reflexivity)). lia.
Qed.

(** ** Character arrays *)

Lemma store_Some (m : list byte) (i : nat) b :
  (i < length m)%nat -> store m (Z.of_nat i) b = Some (<[i := b]> m).
Proof.
  intros H. unfold store. rewrite decide_True by lia. by rewrite Nat2Z.id.
Qed.

Lemma store_length (m m' : list byte) i b :
  store m i b = Some m' -> length m' = length m.
Proof.
  unfold store. case_decide; [|done]. intros [= <-]. apply length_insert.
Qed.

Lemma read_range_prefix (m : list byte) (n : nat) :
  (n <= length m)%nat -> read_range m 0 (Z.of_nat n) = Some (take n m).
Proof.
  intros H. unfold read_range. rewrite decide_True by lia.
  by rewrite Nat2Z.id.
Qed.

Lemma write_range_Some (m src : list byte) (p : nat) :
  (p + length src <= length m)%nat ->
  write_range m (Z.of_nat p) src
  = Some (take p m ++ src ++ drop (p + length src) m).
Proof.
  intros H. unfold write_range. rewrite decide_True by lia.
  by rewrite Nat2Z.id.
Qed.

Lemma write_range_length (m m' src : list byte) pos :
  write_range m pos src = Some m' -> length m' = length m.
Proof.
  unfold write_range. case_decide; [|done]. intros [= <-].
  rewrite !length_app, length_take, length_drop. lia.
Qed.

(** Writing [src] at [p] and then one more character right behind it. *)
Lemma write_then_store (m src : list byte) (p : nat) b :
  (p + length src < length m)%nat ->
  write_range m (Z.of_nat p) src
    ≫= (λ d, store d (Z.of_nat p + Z.of_nat (length src)) b)
  = Some (take p m ++ src ++ b :: drop (S (p + length src)) m).
Proof.
  intros H. rewrite write_range_Some by lia. simpl.
  destruct (lookup_lt_is_Some_2 m (p + length src) H) as [c Hc].
  rewrite (drop_S _ _ _ Hc), <- Nat2Z.inj_add.
  rewrite store_Some
    by (rewrite !length_app, length_take; simpl; rewrite length_drop; lia).
  f_equal. rewrite app_assoc.
  replace (p + length src)%nat with (length (take p m ++ src) + 0)%nat
    by (rewrite length_app, length_take; lia).
  rewrite insert_app_r. simpl. by rewrite <- app_assoc.
Qed.

(** ** [append] of characters *)

Lemma copied_range N s len :
  wf N s -> 0 <= len -> 0 <= copied N s len <= N - m_size s.
Proof. unfold wf, copied. lia. Qed.

(** The whole effect of [append(std::string_view)] on a well-formed
    string. *)
Lemma append_sv_eq N s (sv : list byte) :
  valid_capacity N -> wf N s ->
  let L := Z.to_nat (m_size s) in
  let k := Z.to_nat (copied N s (Z.of_nat (length sv))) in
  append_sv N s sv
  = Some {| m_data := take L (m_data s) ++ take k sv
                      ++ x00 :: drop (S (L + k)) (m_data s);
            m_size := m_size s + Z.of_nat k |}.
Proof.
  intros HN Hwf L k.
  pose proof (copied_range N s (Z.of_nat (length sv)) Hwf ltac:(lia)) as Hk.
  destruct Hwf as [Hsz Hlen]. unfold valid_capacity in HN.
  unfold append_sv, size_sub, size_add.
  rewrite (size_wrap_small (N - m_size s)) by lia.
  assert (Hto : (if Z.of_nat (length sv) >? N - m_size s
                 then N - m_size s else Z.of_nat (length sv)) = Z.of_nat k).
  { subst k. unfold copied in *. destruct (Z.gtb_spec (Z.of_nat (length sv)) (N - m_size s)); lia. }
  rewrite Hto.
  assert (Hkl : (k <= length sv)%nat) by (subst k; unfold copied; lia).
  rewrite read_range_prefix by done. simpl.
  rewrite size_wrap_small by lia.
  assert (HL : m_size s = Z.of_nat L) by lia.
  assert (Hlk : length (take k sv) = k) by (rewrite length_take; lia).
  assert (Hfit : (L + k < length (m_data s))%nat) by lia.
  clearbody L k. rewrite HL.
  pose proof (write_then_store (m_data s) (take k sv) L x00) as Hw.
  rewrite Hlk in Hw. specialize (Hw Hfit).
  destruct (write_range (m_data s) (Z.of_nat L) (take k sv)) as [d|];
    simpl in *; [|done].
  by rewrite Hw.
Qed.

Lemma strlen_bounds mem len :
  strlen mem = Some len -> 0 <= len < Z.of_nat (length mem).
Proof.
  revert len. induction mem as [|c rest IH]; intros len; simpl; [done|].
  destruct (Byte.eqb c x00).
  - intros [= <-]. lia.
  - destruct (strlen rest) as [n|]; simpl; [|done].
    intros [= <-]. specialize (IH n eq_refl). lia.
Qed.

(** [strlen] finds the first terminator. *)
Lemma strlen_terminator mem len :
  strlen mem = Some len ->
  mem !! Z.to_nat len = Some x00
  /\ Forall (fun c => c <> x00) (take (Z.to_nat len) mem).
Proof.
  revert len. induction mem as [|c rest IH]; intros len; simpl; [done|].
  destruct (Byte.eqb c x00) eqn:Hc.
  - intros [= <-]. apply Byte.byte_dec_bl in Hc. subst c. simpl.
    split; [done | constructor].
  - destruct (strlen rest) as [n|] eqn:Hn; simpl; [|done].
    intros [= <-]. destruct (IH n eq_refl) as [IH1 IH2].
    pose proof (strlen_bounds _ _ Hn).
    rewrite Z2Nat.inj_succ by lia. simpl. split; [done|].
    constructor; [|done]. by apply Byte.eqb_false.
Qed.

(** A C string is appended like the view of its characters. *)
Lemma append_cstr_as_sv N s mem len :
  strlen mem = Some len ->
  append_cstr N s (Some mem) = append_sv N s (take (Z.to_nat len) mem).
Proof.
  intros Hlen. pose proof (strlen_bounds _ _ Hlen) as Hb.
  unfold append_cstr, append_sv. rewrite Hlen. simpl.
  rewrite length_take, Nat2Z.inj_min, Z2Nat.id, Z.min_l by lia.
  set (to_copy := if len >? size_sub N (m_size s)
                  then size_sub N (m_size s) else len).
  assert (Hto : 0 <= to_copy <= len).
  { subst to_copy. pose proof (size_wrap_range (N - m_size s)).
    unfold size_sub. destruct (Z.gtb_spec len (size_wrap (N - m_size s))); lia. }
  replace (read_range (take (Z.to_nat len) mem) 0 to_copy)
    with (read_range mem 0 to_copy); [done|].
  unfold read_range.
  rewrite !decide_True by (rewrite ?length_take; lia).
  simpl. rewrite !drop_0, take_take. do 2 f_equal. lia.
Qed.

(** What the storage [take L d ++ chars ++ x00 :: drop (S (L + k)) d] looks
    like from outside. *)
Lemma spliced_storage (d chars : list byte) (L : nat) :
  (L + length chars < length d)%nat ->
  let d' := take L d ++ chars ++ x00 :: drop (S (L + length chars)) d in
  length d' = length d
  /\ take L d' = take L d
  /\ take (length chars) (drop L d') = chars
  /\ take (L + length chars) d' = take L d ++ chars
  /\ d' !! (L + length chars)%nat = Some x00
  /\ drop (S (L + length chars)) d' = drop (S (L + length chars)) d.
Proof.
  intros H d'. subst d'.
  assert (HL : length (take L d) = L) by (rewrite length_take; lia).
  repeat split.
  - rewrite !length_app, HL. simpl. rewrite length_drop. lia.
  - by rewrite take_app_length'.
  - rewrite drop_app_length' by done. by rewrite take_app_length.
  - rewrite app_assoc, take_app_length'; [done|].
    rewrite length_app. lia.
  - rewrite app_assoc, lookup_app_r by (rewrite length_app; lia).
    rewrite length_app, HL. by rewrite Nat.sub_diag.
  - rewrite app_assoc.
    replace (take L d ++ chars) with ((take L d ++ chars) ++ []) at 1
      by apply app_nil_r.
    change (x00 :: ?r) with ([x00] ++ r). rewrite !app_assoc.
    rewrite drop_app_length'; [done|].
    rewrite !length_app, HL. simpl. lia.
Qed.

(** The effect of [append(std::string_view)], as seen through the
    accessors. *)
Lemma append_sv_effect N t :
  valid_capacity N -> wf N t ->
  forall sv : list byte,
    let L := m_size t in
    let k := Z.min (Z.of_nat (length sv)) (N - L) in
    exists s',
      append_sv N t sv = Some s'
      /\ m_size s' = L + k
      /\ take (Z.to_nat k) (drop (Z.to_nat L) (m_data s'))
         = take (Z.to_nat k) sv
      /\ at_ s' (m_size s') = Some x00
      /\ take (Z.to_nat L) (m_data s') = take (Z.to_nat L) (m_data t)
      /\ drop (Z.to_nat (L + k + 1)) (m_data s')
         = drop (Z.to_nat (L + k + 1)) (m_data t)
      /\ length (m_data s') = length (m_data t).
Proof.
  intros HN Ht sv. cbv zeta.
  pose proof (append_sv_eq N t sv HN Ht) as Heq.
  pose proof (copied_range N t (Z.of_nat (length sv)) Ht ltac:(lia)) as Hk.
  unfold copied in Heq, Hk. cbv zeta in Heq.
  set (k := Z.min (Z.of_nat (length sv)) (N - m_size t)) in *.
  destruct Ht as [Hsz Hlen].
  set (chars := take (Z.to_nat k) sv) in *.
  assert (Hchars : length chars = Z.to_nat k).
  { subst chars. rewrite length_take. lia. }
  rewrite <- Hchars in Heq.
  destruct (spliced_storage (m_data t) chars (Z.to_nat (m_size t)))
    as (H1 & H2 & H3 & H4 & H5 & H6); [lia|].
  eexists. split; [exact Heq|]. simpl. unfold at_. simpl.
  rewrite decide_True by lia.
  replace (Z.to_nat (m_size t + Z.of_nat (length chars)))
    with (Z.to_nat (m_size t) + length chars)%nat by lia.
  replace (Z.to_nat (m_size t + k + 1))
    with (S (Z.to_nat (m_size t) + length chars)) by lia.
  rewrite <- Hchars. repeat split; try done. lia.
Qed.

(** C2: on a well-formed string, appending a view or a C string copies the
    first [min(len, N - m_size)] characters of the input to
    [m_data[m_size ..]], adds that count to [m_size], writes the terminator
    behind them and touches nothing else; the call always returns, and there
    is nothing in its result that reports a truncation.  A null pointer
    leaves the string as it is.  On a freshly constructed string the result
    has [min(N, len)] characters, the first ones of the input. *)
Theorem append_chars_truncates N s :
  valid_capacity N -> wf N s ->
  (forall sv : list byte,
      let L := m_size s in
      let k := Z.min (Z.of_nat (length sv)) (N - L) in
      exists s',
        append_sv N s sv = Some s'
        /\ m_size s' = L + k
        /\ take (Z.to_nat k) (drop (Z.to_nat L) (m_data s'))
           = take (Z.to_nat k) sv
        /\ at_ s' (m_size s') = Some x00
        /\ take (Z.to_nat L) (m_data s') = take (Z.to_nat L) (m_data s)
        /\ drop (Z.to_nat (L + k + 1)) (m_data s')
           = drop (Z.to_nat (L + k + 1)) (m_data s)
        /\ length (m_data s') = length (m_data s))
  /\ (forall (mem : list byte) (len : Z),
      strlen mem = Some len ->
      let L := m_size s in
      let k := Z.min len (N - L) in
      exists s',
        append_cstr N s (Some mem) = Some s'
        /\ m_size s' = L + k
        /\ take (Z.to_nat k) (drop (Z.to_nat L) (m_data s'))
           = take (Z.to_nat k) mem
        /\ at_ s' (m_size s') = Some x00
        /\ take (Z.to_nat L) (m_data s') = take (Z.to_nat L) (m_data s)
        /\ drop (Z.to_nat (L + k + 1)) (m_data s')
           = drop (Z.to_nat (L + k + 1)) (m_data s)
        /\ length (m_data s') = length (m_data s))
  /\ append_cstr N s None = Some s
  /\ (forall init sv : list byte,
      Z.of_nat (length init) = N + 1 ->
      exists s0 s',
        ctor_default init = Some s0
        /\ append_sv N s0 sv = Some s'
        /\ m_size s' = Z.min N (Z.of_nat (length sv))
        /\ view s' = take (Z.to_nat (m_size s')) sv
        /\ at_ s' (m_size s') = Some x00).
Proof.
  intros HN Hwf.
  pose proof (append_sv_effect N) as Hsv.
  split; [exact (Hsv s HN Hwf) | split; [|split; [done|]]].
  - intros mem len Hlen L k.
    pose proof (strlen_bounds _ _ Hlen) as Hb.
    rewrite (append_cstr_as_sv N s mem len Hlen).
    destruct (Hsv s HN Hwf (take (Z.to_nat len) mem))
      as (s' & Happ & Hsize & Hcopy & Hrest).
    assert (Hl : Z.of_nat (length (take (Z.to_nat len) mem)) = len)
      by (rewrite length_take; lia).
    cbv zeta in Hsize, Hcopy, Hrest. rewrite Hl in Hsize, Hcopy, Hrest.
    exists s'. split; [done|]. split; [done|]. split; [|done].
    subst L k. rewrite Hcopy, take_take. f_equal. lia.
  - intros init sv Hinit.
    assert (Hinit' : (0 < length init)%nat) by (unfold valid_capacity in HN; lia).
    pose proof (store_Some init 0 x00 Hinit') as Hst.
    change (Z.of_nat 0) with 0 in Hst.
    unfold ctor_default. rewrite Hst. simpl.
    set (s0 := {| m_data := <[0%nat:=x00]> init; m_size := 0 |}).
    assert (Hwf0 : wf N s0).
    { unfold wf, s0. simpl. rewrite length_insert.
      unfold valid_capacity in HN. lia. }
    destruct (Hsv s0 HN Hwf0 sv) as (s' & Happ & Hsize & Hcopy & Hterm & _).
    simpl in Hsize, Hcopy. rewrite drop_0 in Hcopy.
    exists s0, s'. split; [done|]. split; [done|].
    split; [lia|]. split; [|done].
    unfold view. rewrite Hsize.
    by rewrite Z.add_0_l.
Qed.

(** The overflow scenario of the test suite, [StackString<8>] and
    "1234567890": the code keeps 8 characters, the whole capacity. *)
Example truncation_on_overflow :
  (s ← ctor_default (replicate 9 xff); append_sv 8 s digits10)
  = Some {| m_data := [x31; x32; x33; x34; x35; x36; x37; x38; x00];
            m_size := 8 |}.
Proof. reflexivity. Qed.

(** ** Two appends and one append of the concatenation *)

(** The logical contents after an append. *)
Lemma append_sv_view N t (sv : list byte) :
  valid_capacity N -> wf N t ->
  exists s',
    append_sv N t sv = Some s'
    /\ wf N s'
    /\ m_size s' = m_size t + Z.min (Z.of_nat (length sv)) (N - m_size t)
    /\ view s' = view t ++ take (Z.to_nat (N - m_size t)) sv.
Proof.
  intros HN Ht.
  destruct (append_sv_effect N t HN Ht sv)
    as (s' & Happ & Hsize & Hcopy & _ & Hkeep & _ & Hlen).
  cbv zeta in *. exists s'. split; [done|].
  destruct Ht as [Hsz Hl].
  split; [unfold wf; lia|]. split; [done|].
  unfold view. rewrite Hsize, Z2Nat.inj_add, <- take_take_drop by lia.
  rewrite Hkeep, Hcopy. f_equal.
  destruct (Z.le_gt_cases (Z.of_nat (length sv)) (N - m_size t)).
  - rewrite Z.min_l, !take_ge by lia. done.
  - by rewrite Z.min_r by lia.
Qed.

Lemma ctor_default_wf N (init : list byte) :
  valid_capacity N -> Z.of_nat (length init) = N + 1 ->
  exists s0,
    ctor_default init = Some s0 /\ wf N s0 /\ m_size s0 = 0
    /\ at_ s0 0 = Some x00.
Proof.
  intros HN Hinit. unfold valid_capacity in HN.
  pose proof (store_Some init 0 x00 ltac:(lia)) as Hst.
  change (Z.of_nat 0) with 0 in Hst.
  unfold ctor_default. rewrite Hst. simpl. eexists. split; [done|].
  unfold wf, at_. simpl. rewrite length_insert.
  split; [lia|]. split; [done|].
  apply list_lookup_insert_eq. lia.
Qed.

(** [strlen] of a run of non-terminators followed by a C string. *)
Lemma strlen_app (pre mem : list byte) :
  Forall (fun c => c <> x00) pre ->
  strlen (pre ++ mem) = (fun n => Z.of_nat (length pre) + n) <$> strlen mem.
Proof.
  induction 1 as [|c pre Hc Hpre IH]; simpl.
  - by destruct (strlen mem).
  - destruct (Byte.eqb c x00) eqn:E.
    + by apply Byte.byte_dec_bl in E.
    + rewrite IH. destruct (strlen mem); simpl; [|done]. f_equal. lia.
Qed.

(** C4: on a fresh string, appending [s1] and then [s2], each call
    truncating on its own, leaves the same length and the same characters
    [[0, m_size)] as one append of the concatenation of [s1] and [s2]; for
    views, and for C strings, where the concatenation is the characters of
    the first followed by the second. *)
Theorem append_twice_is_append_concat N (init : list byte) :
  valid_capacity N -> Z.of_nat (length init) = N + 1 ->
  (forall s1 s2 : list byte,
      exists s0 sa sb sc,
        ctor_default init = Some s0
        /\ append_sv N s0 s1 = Some sa
        /\ append_sv N sa s2 = Some sb
        /\ append_sv N s0 (s1 ++ s2) = Some sc
        /\ m_size sb = m_size sc
        /\ view sb = view sc)
  /\ (forall (mem1 mem2 : list byte) (len1 len2 : Z),
      strlen mem1 = Some len1 -> strlen mem2 = Some len2 ->
      exists s0 sa sb sc,
        ctor_default init = Some s0
        /\ append_cstr N s0 (Some mem1) = Some sa
        /\ append_cstr N sa (Some mem2) = Some sb
        /\ append_cstr N s0 (Some (take (Z.to_nat len1) mem1 ++ mem2))
           = Some sc
        /\ m_size sb = m_size sc
        /\ view sb = view sc).
Proof.
  intros HN Hinit.
  destruct (ctor_default_wf N init HN Hinit) as (s0 & H0 & Hwf0 & Hsz0 & _).
  assert (Hviews : forall s1 s2 : list byte,
    exists sa sb sc,
      append_sv N s0 s1 = Some sa
      /\ append_sv N sa s2 = Some sb
      /\ append_sv N s0 (s1 ++ s2) = Some sc
      /\ m_size sb = m_size sc
      /\ view sb = view sc).
  { intros s1 s2.
    destruct (append_sv_view N s0 s1 HN Hwf0) as (sa & Ha & Hwfa & Hsa & Hva).
    destruct (append_sv_view N sa s2 HN Hwfa) as (sb & Hb & Hwfb & Hsb & Hvb).
    destruct (append_sv_view N s0 (s1 ++ s2) HN Hwf0)
      as (sc & Hc & Hwfc & Hsc & Hvc).
    exists sa, sb, sc. repeat (split; [done|]).
    rewrite length_app, Nat2Z.inj_add in Hsc.
    split; [lia|].
    rewrite Hvb, Hva, Hvc, <- app_assoc. f_equal.
    rewrite Hsa, Hsz0, take_app. f_equal.
    unfold valid_capacity in HN.
    destruct (Z.le_gt_cases (Z.of_nat (length s1)) N).
    - rewrite Z.min_l by lia. f_equal. lia.
    - rewrite Z.min_r by lia.
      replace (Z.to_nat (N - (0 + (N - 0)))) with 0%nat by lia.
      replace (Z.to_nat (N - 0) - length s1)%nat with 0%nat by lia.
      done. }
  split.
  - intros s1 s2. destruct (Hviews s1 s2) as (sa & sb & sc & H).
    by exists s0, sa, sb, sc.
  - intros mem1 mem2 len1 len2 Hl1 Hl2.
    pose proof (strlen_bounds _ _ Hl1) as Hb1.
    destruct (strlen_terminator _ _ Hl1) as [_ Hnz].
    set (c1 := take (Z.to_nat len1) mem1) in *.
    set (c2 := take (Z.to_nat len2) mem2).
    assert (Hl12 : strlen (c1 ++ mem2) = Some (len1 + len2)).
    { rewrite strlen_app, Hl2 by done. simpl. f_equal.
      subst c1. rewrite length_take. lia. }
    destruct (Hviews c1 c2) as (sa & sb & sc & Ha & Hb & Hc & Hsz & Hv).
    exists s0, sa, sb, sc. split; [done|].
    rewrite (append_cstr_as_sv N s0 mem1 len1 Hl1).
    rewrite (append_cstr_as_sv N sa mem2 len2 Hl2).
    rewrite (append_cstr_as_sv N s0 (c1 ++ mem2) (len1 + len2) Hl12).
    repeat (split; [done|]). split; [|done].
    rewrite <- Hc. f_equal.
    pose proof (strlen_bounds _ _ Hl2) as Hb2.
    assert (Hc1 : length c1 = Z.to_nat len1)
      by (subst c1; rewrite length_take; lia).
    rewrite take_app, Hc1, take_ge by lia.
    f_equal. subst c2. f_equal. lia.
Qed.

(** Proofs about one string name its storage [d] and write its size as the
    natural number [L] that indexes the storage. *)
Ltac size_as_nat s d L :=
  let sz := fresh "sz" in
  let HL := fresh "HL" in
  destruct s as [d sz]; simpl in *;
  remember (Z.to_nat sz) as L eqn:HL;
  assert (sz = Z.of_nat L) as -> by lia; clear HL.

(** ** [append] of an integer *)

Example decimal_chars_12345 :
  decimal_chars 12345 = [x31; x32; x33; x34; x35].
Proof. reflexivity. Qed.

Example decimal_chars_negative : decimal_chars (-40) = [x2d; x34; x30].
Proof. reflexivity. Qed.

Example decimal_chars_zero : decimal_chars 0 = [x30].
Proof. reflexivity. Qed.

(** The decimal representation fits: it is written behind the old contents
    and committed. *)
Lemma append_int_fits N (scratch : list byte) s value :
  valid_capacity N -> wf N s ->
  Z.of_nat (length (decimal_chars value)) <= N - m_size s ->
  exists s',
    append_int N scratch s value = Some s'
    /\ m_size s' = m_size s + Z.of_nat (length (decimal_chars value))
    /\ view s' = view s ++ decimal_chars value
    /\ at_ s' (m_size s') = Some x00
    /\ length (m_data s') = length (m_data s).
Proof.
  intros HN [Hsz Hlen] Hfit. unfold valid_capacity in HN.
  set (digits := decimal_chars value) in *.
  size_as_nat s d L.
  unfold append_int, to_chars, view. simpl. fold digits.
  rewrite decide_True by lia. rewrite Nat2Z.id.
  rewrite decide_True by done.
  destruct (spliced_storage d digits L)
    as (H1 & H2 & H3 & H4 & H5 & H6); [lia|].
  pose proof (write_then_store d digits L x00 ltac:(lia)) as Hw.
  destruct (write_range d (Z.of_nat L) digits) as [d'|];
    simpl in *; [|done].
  rewrite Hw. simpl. eexists. split; [done|]. simpl.
  split; [lia|]. unfold at_. simpl. rewrite decide_True by lia.
  replace (Z.to_nat (Z.of_nat L + Z.of_nat (length digits)))
    with (L + length digits)%nat by lia.
  by rewrite H4, H5, H1.
Qed.

(** It does not fit: only the tail behind [m_size] may have changed. *)
Lemma append_int_too_large N (scratch : list byte) s value :
  valid_capacity N -> wf N s ->
  N - m_size s < Z.of_nat (length (decimal_chars value)) ->
  exists s',
    append_int N scratch s value = Some s'
    /\ m_size s' = m_size s
    /\ view s' = view s
    /\ length (m_data s') = length (m_data s).
Proof.
  intros HN [Hsz Hlen] Hfit. unfold valid_capacity in HN.
  size_as_nat s d L.
  unfold append_int, to_chars, view. simpl.
  rewrite decide_True by lia. rewrite Nat2Z.id.
  rewrite decide_False by lia.
  set (sc := take (Z.to_nat (N - Z.of_nat L)) scratch).
  assert (Hsc : (length sc <= Z.to_nat (N - Z.of_nat L))%nat)
    by (subst sc; rewrite length_take; lia).
  rewrite write_range_Some by lia. simpl.
  eexists. split; [done|]. simpl. split; [done|].
  rewrite take_app_length' by (rewrite length_take; lia).
  split; [done|].
  rewrite !length_app, length_take, length_drop. lia.
Qed.

(** C3: on a well-formed string, [append] of an integer either commits the
    whole decimal representation (it fits in [N - m_size]: the digits follow
    the old contents, [m_size] grows by their number, the terminator is
    written behind them) or commits nothing (it does not fit: [m_size] and
    the characters [[0, m_size)] are what they were, whatever [to_chars]
    left in the unused tail).  In both cases the call returns a string and
    nothing else. *)
Theorem append_int_atomic N (scratch : list byte) s value :
  valid_capacity N -> wf N s ->
  let digits := decimal_chars value in
  (Z.of_nat (length digits) <= N - m_size s ->
   exists s',
     append_int N scratch s value = Some s'
     /\ m_size s' = m_size s + Z.of_nat (length digits)
     /\ view s' = view s ++ digits
     /\ at_ s' (m_size s') = Some x00
     /\ length (m_data s') = length (m_data s))
  /\ (N - m_size s < Z.of_nat (length digits) ->
      exists s',
        append_int N scratch s value = Some s'
        /\ m_size s' = m_size s
        /\ view s' = view s
        /\ length (m_data s') = length (m_data s)).
Proof.
  intros HN Hwf digits. split; intros Hfit.
  - by apply append_int_fits.
  - by apply append_int_too_large.
Qed.

(** ** [resize] and [clear] *)

Lemma spliced_lookup (d chars : list byte) (L i : nat) :
  (L + length chars < length d)%nat ->
  (take L d ++ chars ++ x00 :: drop (S (L + length chars)) d) !! i
  = if decide (i < L)%nat then d !! i
    else if decide (i < L + length chars)%nat then chars !! (i - L)%nat
    else if decide (i = L + length chars)%nat then Some x00
    else d !! i.
Proof.
  intros H.
  assert (HL : length (take L d) = L) by (rewrite length_take; lia).
  repeat case_decide.
  - rewrite lookup_app_l by lia. apply lookup_take_lt. lia.
  - rewrite lookup_app_r, HL by lia. apply lookup_app_l. lia.
  - subst i. rewrite lookup_app_r, HL by lia.
    rewrite lookup_app_r by lia.
    by replace (L + length chars - L - length chars)%nat with 0%nat by lia.
  - rewrite lookup_app_r, HL by lia. rewrite lookup_app_r by lia.
    rewrite lookup_cons_ne_0 by lia. rewrite lookup_drop. f_equal. lia.
Qed.

Lemma at_nat (s : StackString) (i : Z) :
  0 <= i -> at_ s i = m_data s !! Z.to_nat i.
Proof. intros H. unfold at_. by rewrite decide_True. Qed.

(** The effect of [resize] on a well-formed string. *)
Lemma resize_effect N s :
  valid_capacity N -> wf N s ->
  forall (count : Z) (ch : byte),
    0 <= count ->
    let c := Z.min count N in
    exists s',
      resize N s count ch = Some s'
      /\ m_size s' = c
      /\ (forall i, 0 <= i < Z.min (m_size s) c -> at_ s' i = at_ s i)
      /\ (forall i, m_size s <= i < c -> at_ s' i = Some ch)
      /\ at_ s' c = Some x00
      /\ (forall i, c < i -> at_ s' i = at_ s i)
      /\ Z.of_nat (length (m_data s')) = N + 1.
Proof.
  intros HN [Hsz Hlen] count ch Hcount c. unfold valid_capacity in HN.
  unfold resize.
  assert (Hc : (if count >? N then N else count) = c).
  { subst c. destruct (Z.gtb_spec count N); lia. }
  rewrite Hc. assert (Hcr : 0 <= c <= N) by lia. clearbody c.
  destruct s as [d L]. simpl in *.
  destruct (Z.gtb_spec c L) as [Hgrow|Hshrink].
  - set (fill := replicate (Z.to_nat (c - L)) ch).
    assert (Hfill : length fill = Z.to_nat (c - L))
      by apply length_replicate.
    pose proof (write_then_store d fill (Z.to_nat L) x00 ltac:(lia)) as Hw.
    rewrite Z2Nat.id in Hw by lia.
    destruct (write_range d L fill) as [d'|]; simpl in *; [|done].
    replace (L + Z.of_nat (length fill)) with c in Hw by lia.
    rewrite Hw. simpl. eexists. split; [done|]. simpl.
    split; [done|].
    assert (Hlook := fun i =>
      spliced_lookup d fill (Z.to_nat L) i ltac:(lia)).
    repeat split.
    + intros i Hi. rewrite !at_nat by lia. simpl. rewrite Hlook.
      by rewrite decide_True by lia.
    + intros i Hi. rewrite at_nat by lia. simpl. rewrite Hlook.
      rewrite decide_False, decide_True by lia.
      apply lookup_replicate_2. lia.
    + rewrite at_nat by lia. simpl. rewrite Hlook.
      rewrite decide_False, decide_False, decide_True by lia. done.
    + intros i Hi. rewrite !at_nat by lia. simpl. rewrite Hlook.
      by rewrite !decide_False by lia.
    + rewrite !length_app, length_take. simpl. rewrite length_drop. lia.
  - simpl. pose proof (store_Some d (Z.to_nat c) x00 ltac:(lia)) as Hst.
    rewrite Z2Nat.id in Hst by lia. rewrite Hst. simpl.
    eexists. split; [done|]. simpl. split; [done|]. repeat split.
    + intros i Hi. rewrite !at_nat by lia. simpl.
      apply list_lookup_insert_ne. lia.
    + intros i Hi. lia.
    + rewrite at_nat by lia. simpl. apply list_lookup_insert_eq. lia.
    + intros i Hi. rewrite !at_nat by lia. simpl.
      apply list_lookup_insert_ne. lia.
    + rewrite length_insert. lia.
Qed.

(** C7: on a well-formed string, [resize(count, ch)] sets [m_size] to
    [min(count, N)], leaves the characters below the old and the new length
    as they were, fills [[old m_size, new m_size)] with [ch], writes the
    terminator at the new [m_size] and changes nothing behind it; the call
    returns, so every access was to an index of [m_data], at most [N].
    [clear] sets [m_size] to 0 and writes the terminator at index 0, and a
    second [clear] changes nothing. *)
Theorem resize_and_clear N s :
  valid_capacity N -> wf N s ->
  (forall (count : Z) (ch : byte),
      0 <= count ->
      let c := Z.min count N in
      exists s',
        resize N s count ch = Some s'
        /\ m_size s' = c
        /\ (forall i, 0 <= i < Z.min (m_size s) c -> at_ s' i = at_ s i)
        /\ (forall i, m_size s <= i < c -> at_ s' i = Some ch)
        /\ at_ s' c = Some x00
        /\ (forall i, c < i -> at_ s' i = at_ s i)
        /\ Z.of_nat (length (m_data s')) = N + 1)
  /\ (exists s',
        clear s = Some s'
        /\ m_size s' = 0
        /\ at_ s' 0 = Some x00
        /\ view s' = []
        /\ Z.of_nat (length (m_data s')) = N + 1
        /\ clear s' = Some s').
Proof.
  intros HN Hwf. split; [by apply resize_effect|].
  destruct Hwf as [Hsz Hlen]. unfold valid_capacity in HN.
  - unfold clear.
    pose proof (store_Some (m_data s) 0 x00 ltac:(lia)) as Hst.
    change (Z.of_nat 0) with 0 in Hst. rewrite Hst. simpl.
    eexists. split; [done|]. simpl. repeat split.
    + rewrite at_nat by lia. simpl. apply list_lookup_insert_eq. lia.
    + rewrite length_insert. lia.
    + pose proof (store_Some (<[0%nat:=x00]> (m_data s)) 0 x00) as Hst'.
      rewrite length_insert in Hst'. change (Z.of_nat 0) with 0 in Hst'.
      rewrite Hst' by lia. simpl. by rewrite list_insert_insert_eq.
Qed.

(** ** Copy and move *)

Lemma copy_from_effect N (dst : list byte) o :
  Z.of_nat (length dst) = N + 1 -> wf N o ->
  exists t,
    copy_from dst o = Some t
    /\ m_size t = m_size o
    /\ take (Z.to_nat (m_size o + 1)) (m_data t)
       = take (Z.to_nat (m_size o + 1)) (m_data o)
    /\ at_ t (m_size t) = at_ o (m_size o)
    /\ drop (Z.to_nat (m_size o + 1)) (m_data t)
       = drop (Z.to_nat (m_size o + 1)) dst
    /\ wf N t.
Proof.
  intros Hdst [Hsz Hlen]. unfold copy_from.
  set (n := Z.to_nat (m_size o + 1)).
  assert (Hn : m_size o + 1 = Z.of_nat n) by lia.
  rewrite Hn, read_range_prefix by lia. simpl.
  assert (Hsrc : length (take n (m_data o)) = n)
    by (rewrite length_take; lia).
  pose proof (write_range_Some dst (take n (m_data o)) 0) as Hw.
  change (Z.of_nat 0) with 0 in Hw. rewrite Hw by lia. simpl.
  rewrite Hsrc. eexists. split; [done|]. simpl.
  split; [done|]. split; [by rewrite take_app_length'|].
  split; [|split].
  - rewrite !at_nat by lia. simpl.
    rewrite lookup_app_l by lia. apply lookup_take_lt. lia.
  - by rewrite drop_app_length'.
  - unfold wf. simpl. rewrite !length_app, length_drop. lia.
Qed.

Lemma clear_effect N o :
  valid_capacity N -> wf N o ->
  exists o',
    clear o = Some o' /\ m_size o' = 0 /\ at_ o' 0 = Some x00 /\ wf N o'.
Proof.
  intros HN [Hsz Hlen]. unfold valid_capacity in HN. unfold clear.
  pose proof (store_Some (m_data o) 0 x00 ltac:(lia)) as Hst.
  change (Z.of_nat 0) with 0 in Hst. rewrite Hst. simpl.
  eexists. split; [done|]. simpl. split; [done|]. split.
  - rewrite at_nat by lia. simpl. apply list_lookup_insert_eq. lia.
  - unfold wf. simpl. rewrite length_insert. lia.
Qed.

(** C8, as the code has it: the copy constructor, the move constructor and
    both assignments between two different objects give the destination the
    source's [m_size] and its characters [[0, m_size]], the one at [m_size]
    included.  A copy leaves the source as it was; a move constructor, and a
    move assignment from a different object, leave the source cleared
    ([m_size] 0, terminator at index 0).  Assigning an object to itself, by
    copy or by move, changes nothing: a self-move does not clear it. *)
Theorem copy_and_move N o :
  valid_capacity N -> wf N o ->
  (forall init : list byte,
      Z.of_nat (length init) = N + 1 ->
      (exists t,
          ctor_copy init o = Some t
          /\ m_size t = m_size o
          /\ take (Z.to_nat (m_size o + 1)) (m_data t)
             = take (Z.to_nat (m_size o + 1)) (m_data o))
      /\ (exists t o',
             ctor_move init o = Some (t, o')
             /\ m_size t = m_size o
             /\ take (Z.to_nat (m_size o + 1)) (m_data t)
                = take (Z.to_nat (m_size o + 1)) (m_data o)
             /\ m_size o' = 0 /\ at_ o' 0 = Some x00))
  /\ (forall (h : gmap nat StackString) (this other : nat) t,
      h !! this = Some t -> wf N t -> h !! other = Some o ->
      this <> other ->
      (exists t',
          copy_assign h this other = Some (<[this := t']> h)
          /\ <[this := t']> h !! other = Some o
          /\ m_size t' = m_size o
          /\ take (Z.to_nat (m_size o + 1)) (m_data t')
             = take (Z.to_nat (m_size o + 1)) (m_data o))
      /\ (exists t' o',
             move_assign h this other
             = Some (<[other := o']> (<[this := t']> h))
             /\ <[other := o']> (<[this := t']> h) !! this = Some t'
           /\ <[other := o']> (<[this := t']> h) !! other = Some o'
             /\ m_size t' = m_size o
             /\ take (Z.to_nat (m_size o + 1)) (m_data t')
                = take (Z.to_nat (m_size o + 1)) (m_data o)
             /\ m_size o' = 0 /\ at_ o' 0 = Some x00))
  /\ (forall (h : gmap nat StackString) (this : nat),
      h !! this = Some o ->
      copy_assign h this this = Some h
      /\ move_assign h this this = Some h).
Proof.
  intros HN Hwf.
  destruct (clear_effect N o HN Hwf) as (o' & Hclr & Ho1 & Ho2 & _).
  split; [|split].
  - intros init Hinit.
    destruct (copy_from_effect N init o Hinit Hwf)
      as (t & Ht & Hsize & Hbytes & _).
    split.
    + exists t. by unfold ctor_copy.
    + exists t, o'. unfold ctor_move. rewrite Ht. simpl. rewrite Hclr.
      simpl. repeat split; assumption.
  - intros h this other t Hthis [_ Hlt] Hother Hne.
    destruct (copy_from_effect N (m_data t) o Hlt Hwf)
      as (t' & Ht & Hsize & Hbytes & _).
    split.
    + exists t'. unfold copy_assign. rewrite Hthis, Hother. simpl.
      rewrite decide_True by done. rewrite Ht. simpl.
      split; [done|]. split; [|done]. by rewrite lookup_insert_ne.
    + exists t', o'. unfold move_assign. rewrite Hthis, Hother. simpl.
      rewrite decide_True by done. rewrite Ht. simpl. rewrite Hclr. simpl.
      split; [done|]. split; [|split; [apply lookup_insert_eq | done]].
      rewrite lookup_insert_ne by done. apply lookup_insert_eq.
  - intros h this Hthis. unfold copy_assign, move_assign.
    rewrite Hthis. simpl.
    split; (case_decide; [congruence | done]).
Qed.


(** C8 as written fails for a self-move: the source keeps its two
    characters instead of being reset to the empty state. *)
Lemma self_move_assign_keeps_source :
  wf 2 ab
  /\ ~ (exists h' o',
          move_assign {[ 0%nat := ab ]} 0%nat 0%nat = Some h'
          /\ h' !! 0%nat = Some o'
          /\ m_size o' = 0).
Proof.
  split; [by unfold wf, ab|].
  intros (h' & o' & Hmove & Hsrc & Hempty).
  unfold move_assign in Hmove. rewrite lookup_singleton_eq in Hmove.
  simpl in Hmove.
  injection Hmove as <-. rewrite lookup_singleton_eq in Hsrc.
  injection Hsrc as <-. discriminate Hempty.
Qed.

(** ** The terminator *)

Lemma append_char_effect N s c :
  valid_capacity N -> wf N s ->
  exists s',
    append_char N s c = Some s'
    /\ wf N s'
    /\ (m_size s = N -> s' = s)
    /\ (m_size s < N ->
        m_size s' = m_size s + 1
        /\ view s' = view s ++ [c]
        /\ at_ s' (m_size s') = Some x00).
Proof.
  intros HN [Hsz Hlen]. unfold valid_capacity in HN. unfold append_char.
  destruct (Z.geb_spec (m_size s) N) as [Hfull|Hroom].
  - exists s. split; [done|]. split; [done|]. split; [done|]. lia.
  - size_as_nat s d L.
    rewrite store_Some by lia. simpl.
    unfold size_add. rewrite size_wrap_small by lia.
    change 1 with (Z.of_nat 1). rewrite <- Nat2Z.inj_add.
    rewrite store_Some by (rewrite length_insert; lia). simpl.
    eexists. split; [done|]. split; [|split; [lia|]].
    + unfold wf. simpl. rewrite !length_insert. lia.
    + intros _. simpl. split; [lia|]. split.
      * unfold view. simpl. rewrite !Nat2Z.id.
        rewrite take_insert_ge by lia.
        replace (L + 1)%nat with (S L) by lia.
        destruct (lookup_lt_is_Some_2 d L ltac:(lia)) as [x Hx].
        erewrite take_S_r by (apply list_lookup_insert_eq; lia).
        by rewrite take_insert_ge by lia.
      * rewrite at_nat by lia. simpl. rewrite Nat2Z.id.
        apply list_lookup_insert_eq. rewrite length_insert. lia.
Qed.

(** How far the invariant [m_data[m_size] == '\0'] goes: every append keeps
    it on a well-formed string, provided a C string argument is null or
    terminated and a failing [to_chars] writes nothing ([scratch = []]). *)
Lemma append_keeps_terminated N s a :
  valid_capacity N -> wf N s -> terminated s ->
  (forall mem, a = arg_cstr (Some mem) -> c_string mem) ->
  exists s', append N [] s a = Some s' /\ wf N s' /\ terminated s'.
Proof.
  intros HN Hwf Hterm Hstr. unfold terminated.
  destruct a as [[mem|]|sv|c|value]; unfold append.
  - destruct (Hstr mem eq_refl) as [len Hlen].
    pose proof (strlen_bounds _ _ Hlen).
    rewrite (append_cstr_as_sv N s mem len Hlen).
    destruct (append_sv_effect N s HN Hwf (take (Z.to_nat len) mem))
      as (s' & -> & Hsize & _ & Ht & _ & _ & Hl).
    exists s'. split; [done|]. split; [|done].
    destruct Hwf. unfold wf. cbv zeta in Hsize. lia.
  - by exists s.
  - destruct (append_sv_effect N s HN Hwf sv)
      as (s' & -> & Hsize & _ & Ht & _ & _ & Hl).
    exists s'. split; [done|]. split; [|done].
    destruct Hwf. unfold wf. cbv zeta in Hsize. lia.
  - destruct (append_char_effect N s c HN Hwf)
      as (s' & -> & Hwf' & Hfull & Hroom).
    exists s'. split; [done|]. split; [done|].
    destruct Hwf as [Hsz _].
    destruct (Z.eq_dec (m_size s) N) as [E|E].
    + by rewrite (Hfull E).
    + apply Hroom. lia.
  - destruct Hwf as [Hsz Hlen].
    destruct (Z.le_gt_cases (Z.of_nat (length (decimal_chars value)))
                (N - m_size s)) as [H|H].
    + destruct (append_int_fits N [] s value HN (conj Hsz Hlen) H)
        as (s' & -> & Hsize & _ & Ht & Hl).
      exists s'. split; [done|]. split; [|done]. unfold wf. lia.
    + unfold append_int, to_chars.
      unfold valid_capacity in HN.
      rewrite decide_True, decide_False by lia.
      rewrite take_nil.
      pose proof (write_range_Some (m_data s) [] (Z.to_nat (m_size s))) as Hw.
      rewrite Z2Nat.id in Hw by lia. rewrite Hw by (simpl; lia). simpl.
      rewrite Nat.add_0_r, take_drop.
      eexists. split; [done|]. split; [done|]. by destruct s.
Qed.

(** C1 fails at [StackString(const char* str)] with a null pointer: [append]
    returns before it writes anything, so the constructor has initialised
    [m_size] only and [m_data[0]] is whatever the storage held; here 0xff,
    not the terminator. *)
Theorem ctor_cstr_null_not_terminated :
  exists s,
    ctor_cstr 2 [xff; xff; xff] None = Some s
    /\ m_size s = 0
    /\ m_data s = [xff; xff; xff]
    /\ at_ s (m_size s) = Some xff
    /\ ~ terminated s.
Proof.
  exists {| m_data := [xff; xff; xff]; m_size := 0 |}.
  repeat split; try reflexivity. unfold terminated. simpl. discriminate.
Qed.

(** The same constructor on any storage: nothing of [init] is written. *)
Lemma ctor_cstr_null N (init : list byte) :
  ctor_cstr N init None = Some {| m_data := init; m_size := 0 |}.
Proof. reflexivity. Qed.

(** The constructors next to it do write the terminator first. *)
Lemma ctor_variadic_null_terminated N (scratch init : list byte) :
  valid_capacity N -> Z.of_nat (length init) = N + 1 ->
  exists s,
    ctor_variadic N scratch init [arg_cstr None; arg_cstr None] = Some s
    /\ terminated s.
Proof.
  intros HN Hinit.
  destruct (ctor_default_wf N init HN Hinit) as (s0 & H0 & _ & Hsz & Ht).
  unfold ctor_default in H0. unfold ctor_variadic.
  destruct (store init 0 x00) as [d|]; simpl in *; [|done].
  injection H0 as <-. eexists. split; [done|]. exact Ht.
Qed.

(** A failed integer append does not write the terminator again: what
    [to_chars] left at [m_data[m_size]] stays there. *)
Lemma append_int_failure_keeps_scratch :
  let s := {| m_data := [x31; x32; x33; x00; xff; x00]; m_size := 3 |} in
  wf 5 s /\ terminated s
  /\ append_int 5 [x41; x42] s 12345
     = Some {| m_data := [x31; x32; x33; x41; x42; x00]; m_size := 3 |}.
Proof. by repeat split. Qed.

(** ** Every observable state is well formed *)

Lemma append_wf N (scratch : list byte) s a s' :
  valid_capacity N -> wf N s ->
  append N scratch s a = Some s' -> wf N s'.
Proof.
  intros HN Hwf. destruct a as [[mem|]|sv|c|value]; unfold append.
  - destruct (strlen mem) as [len|] eqn:Hlen.
    + rewrite (append_cstr_as_sv N s mem len Hlen).
      destruct (append_sv_view N s (take (Z.to_nat len) mem) HN Hwf)
        as (s'' & -> & Hwf' & _). by intros [= <-].
    + unfold append_cstr. by rewrite Hlen.
  - by intros [= <-].
  - destruct (append_sv_view N s sv HN Hwf) as (s'' & -> & Hwf' & _).
    by intros [= <-].
  - destruct (append_char_effect N s c HN Hwf) as (s'' & -> & Hwf' & _).
    by intros [= <-].
  - destruct (Z.le_gt_cases (Z.of_nat (length (decimal_chars value)))
                (N - m_size s)) as [H|H].
    + destruct (append_int_fits N scratch s value HN Hwf H)
        as (s'' & -> & Hsize & _ & _ & Hl).
      intros [= <-]. destruct Hwf. unfold wf. lia.
    + destruct (append_int_too_large N scratch s value HN Hwf H)
        as (s'' & -> & Hsize & _ & Hl).
      intros [= <-]. destruct Hwf. unfold wf. lia.
Qed.

Lemma append_all_wf N (scratch : list byte) args :
  valid_capacity N ->
  forall s s', wf N s -> append_all N scratch s args = Some s' -> wf N s'.
Proof.
  intros HN. induction args as [|a args IH]; intros s s' Hwf; simpl.
  - by intros [= <-].
  - destruct (append N scratch s a) as [s1|] eqn:Ha; simpl; [|done].
    apply IH. by eapply append_wf.
Qed.

Lemma raw_storage_wf N (init : list byte) :
  valid_capacity N -> Z.of_nat (length init) = N + 1 ->
  wf N {| m_data := init; m_size := 0 |}.
Proof. unfold valid_capacity, wf. simpl. lia. Qed.

Lemma reachable_wf N s : valid_capacity N -> reachable N s -> wf N s.
Proof.
  intros HN. induction 1 as
    [ init s Hinit Hs | init str s Hinit Hs | init sv s Hinit Hs
    | scratch init args s Hinit Hs | init o s Hinit Ho IHo Hs
    | init o s o' Hinit Ho IHo Hs | init o s o' Hinit Ho IHo Hs
    | t o t' Ht IHt Ho IHo Hs | scratch s a s' Hs IHs Ha
    | s s' Hs IHs Hc | s count ch s' Hs IHs Hcount Hr ].
  - destruct (ctor_default_wf N init HN Hinit) as (s0 & H0 & Hwf & _).
    congruence.
  - eapply (append_wf N [] _ (arg_cstr str)); [done| |exact Hs].
    by apply raw_storage_wf.
  - eapply (append_wf N [] _ (arg_sv sv)); [done| |exact Hs].
    by apply raw_storage_wf.
  - destruct (ctor_default_wf N init HN Hinit) as (s0 & H0 & Hwf & _).
    unfold ctor_variadic in Hs. unfold ctor_default in H0.
    destruct (store init 0 x00) as [d|]; simpl in *; [|done].
    injection H0 as <-. by eapply append_all_wf.
  - destruct (copy_from_effect N init o Hinit IHo) as (t & Ht & _ & _ & _ & _ & Hwf).
    unfold ctor_copy in Hs. congruence.
  - destruct (copy_from_effect N init o Hinit IHo) as (t & Ht & _ & _ & _ & _ & Hwf).
    destruct (clear_effect N o HN IHo) as (o1 & Ho1 & _ & _ & Hwf1).
    unfold ctor_move in Hs. rewrite Ht in Hs. simpl in Hs.
    rewrite Ho1 in Hs. simpl in Hs. congruence.
  - destruct (copy_from_effect N init o Hinit IHo) as (t & Ht & _ & _ & _ & _ & Hwf).
    destruct (clear_effect N o HN IHo) as (o1 & Ho1 & _ & _ & Hwf1).
    unfold ctor_move in Hs. rewrite Ht in Hs. simpl in Hs.
    rewrite Ho1 in Hs. simpl in Hs. congruence.
  - destruct IHt as [_ Hlt].
    destruct (copy_from_effect N (m_data t) o Hlt IHo)
      as (t1 & Ht1 & _ & _ & _ & _ & Hwf).
    congruence.
  - by eapply append_wf.
  - destruct (clear_effect N s HN IHs) as (s1 & Hs1 & _ & _ & Hwf).
    congruence.
  - destruct (resize_effect N s HN IHs count ch ltac:(lia))
      as (s1 & Hs1 & Hsize & _ & _ & _ & _ & Hl).
    assert (s' = s1) as -> by congruence.
    unfold wf, valid_capacity in *. cbv zeta in Hsize. lia.
Qed.

(** An observable state that does not end in the terminator. *)
Lemma reachable_not_terminated :
  exists s, reachable 2 s /\ ~ terminated s.
Proof.
  exists {| m_data := [xff; xff; xff]; m_size := 0 |}. split; [|done].
  by apply (reach_ctor_cstr 2 [xff; xff; xff] None).
Qed.

(** ** Operators *)

(** C10: [operator+=] and [operator<<] return what [append] returns on the
    same string and argument, for each kind of argument. *)
Theorem operators_are_append N (scratch : list byte) s (a : arg) :
  operator_plus_eq N scratch s a = append N scratch s a
  /\ operator_shl N scratch s a = append N scratch s a.
Proof. by destruct a. Qed.

(** ** [FixedBufAllocator] *)

Lemma pointer_eqb_eq p q : pointer_eqb p q = true <-> p = q.
Proof.
  destruct p as [|b1 o1], q as [|b2 o2]; simpl; split; try done.
  - rewrite andb_true_iff, Nat.eqb_eq, Z.eqb_eq. by intros [-> ->].
  - intros [= -> ->]. by rewrite Nat.eqb_refl, Z.eqb_refl.
Qed.

(** [allocate] when neither the byte count nor the new offset wraps: the
    behaviour the documentation describes. *)
Lemma allocate_in_range sizeof_T a n :
  m_buffer a <> nullptr ->
  0 <= m_used a -> 0 <= n * sizeof_T ->
  m_used a + n * sizeof_T <= SIZE_MAX ->
  (m_used a + n * sizeof_T <= m_capacity a ->
   allocate sizeof_T a n
   = (pointer_add (m_buffer a) (m_used a),
      {| m_buffer := m_buffer a; m_capacity := m_capacity a;
         m_used := m_used a + n * sizeof_T |}))
  /\ (m_capacity a < m_used a + n * sizeof_T ->
      allocate sizeof_T a n = (nullptr, a)).
Proof.
  intros Hbuf Hused Hbytes Hmax. unfold allocate, size_mul, size_add.
  rewrite (size_wrap_small (n * sizeof_T)) by lia.
  rewrite size_wrap_small by lia.
  destruct (m_buffer a) as [|b o]; [done|]. simpl.
  destruct (Z.leb_spec (m_used a + n * sizeof_T) (m_capacity a));
    split; intros; try lia; done.
Qed.

(** Without wrap-around no call makes [m_used] smaller. *)
Lemma alloc_step_used_in_range sizeof_T a (o : alloc_op) :
  0 <= m_used a ->
  (forall n, o = op_allocate n ->
     0 <= n * sizeof_T /\ m_used a + n * sizeof_T <= SIZE_MAX) ->
  m_used a <= m_used (alloc_step sizeof_T a o).
Proof.
  intros Hused Hrange. destruct o as [n|p n]; unfold alloc_step.
  - destruct (Hrange n eq_refl) as [Hbytes Hmax].
    unfold allocate, size_mul, size_add.
    rewrite (size_wrap_small (n * sizeof_T)) by lia.
    rewrite size_wrap_small by lia.
    case_match; simpl; lia.
  - unfold deallocate. lia.
Qed.

(** With or without it, [m_used] stays within [m_capacity]. *)
Lemma allocate_used_le_capacity sizeof_T a n :
  m_used a <= m_capacity a ->
  m_used (snd (allocate sizeof_T a n)) <= m_capacity a.
Proof.
  intros Hle. unfold allocate.
  destruct (pointer_to_bool (m_buffer a)); simpl; [|done].
  destruct (Z.leb_spec (size_add (m_used a) (size_mul n sizeof_T))
              (m_capacity a)); simpl; lia.
Qed.

(** A 16-byte buffer serves a request of 10 bytes and declines the next
    one, with [m_used] still 10. *)
Example allocate_until_exhausted :
  let a0 := alloc_ctor (addr 0 0) 16 in
  let r1 := allocate 1 a0 10 in
  let r2 := allocate 1 (snd r1) 10 in
  fst r1 = addr 0 0 /\ m_used (snd r1) = 10
  /\ fst r2 = nullptr /\ m_used (snd r2) = 10.
Proof. by repeat split. Qed.

(** C5 fails when the arithmetic wraps.  A [FixedBufAllocator<char>] over a
    16-byte buffer has handed out 10 bytes; [allocate(SIZE_MAX)] then
    computes [m_used + bytes] as 9, which passes the capacity test: the call
    returns the non-null [buffer + 10] for a request that cannot fit, and
    [m_used] goes back from 10 to 9. *)
Theorem allocate_wraps :
  let a0 := alloc_ctor (addr 0 0) 16 in
  let r1 := allocate 1 a0 10 in
  let r2 := allocate 1 (snd r1) SIZE_MAX in
  fst r1 = addr 0 0
  /\ m_used (snd r1) = 10
  /\ m_capacity (snd r1) < m_used (snd r1) + SIZE_MAX * 1
  /\ fst r2 = addr 0 10
  /\ m_used (snd r2) = 9.
Proof. by repeat split. Qed.

(** The multiplication wraps as well: [allocate(2^62)] on a
    [FixedBufAllocator] of 4-byte elements asks for 0 bytes and succeeds. *)
Lemma allocate_wraps_mul :
  allocate 4 (alloc_ctor (addr 0 0) 16) (2 ^ 62)
  = (addr 0 0, alloc_ctor (addr 0 0) 16).
Proof. reflexivity. Qed.

(** [deallocate] is the identity, whatever it is given. *)
Lemma deallocate_noop a p n : deallocate a p n = a.
Proof. reflexivity. Qed.

(** With the access of a friend, the body of [operator==] would say whether
    the two allocators have the same buffer, whatever their capacities and
    offsets. *)
Lemma compare_buffers_as_friend (a b : FixedBufAllocator) :
  compare_buffers from_FixedBufAllocator a b = Some true
  <-> m_buffer a = m_buffer b.
Proof.
  unfold compare_buffers. simpl. split.
  - intros [= H]. by apply pointer_eqb_eq.
  - intros H. f_equal. by apply pointer_eqb_eq.
Qed.

(** C6 fails before any comparison is made: [operator==] reads the private
    [m_buffer] at namespace scope without being a friend, so [a == b] and
    [a != b] are ill-formed for every two allocators, over the same buffer
    or not, the rebound copy of an allocator included.  The rebinding
    constructor itself, which the friend declaration covers, does copy
    buffer, capacity and offset. *)
Theorem alloc_eq_is_ill_formed (a b : FixedBufAllocator) :
  alloc_eq a b = None
  /\ alloc_ne a b = None
  /\ alloc_eq alloc16 alloc16 = None
  /\ alloc_eq (alloc_rebind a) a = None
  /\ m_buffer (alloc_rebind a) = m_buffer a
  /\ m_capacity (alloc_rebind a) = m_capacity a
  /\ m_used (alloc_rebind a) = m_used a.
Proof. by repeat split. Qed.

(** C9: an allocator constructed over a null buffer answers every
    [allocate] with the null pointer and stays as constructed, with
    [m_used] 0; also after any run of [allocate] and [deallocate] calls. *)
Theorem allocate_null_buffer (sizeof_T capacity : Z) :
  let a := alloc_ctor nullptr capacity in
  m_used a = 0
  /\ (forall n, allocate sizeof_T a n = (nullptr, a))
  /\ (forall (ops : list alloc_op) (n : Z),
        alloc_run sizeof_T a ops = a
        /\ allocate sizeof_T (alloc_run sizeof_T a ops) n = (nullptr, a)).
Proof.
  intros a. split; [done|]. split; [done|].
  assert (Hrun : forall ops, alloc_run sizeof_T a ops = a).
  { induction ops as [|[n|p n] ops IH]; [done|exact IH|exact IH]. }
  intros ops n. by rewrite Hrun.
Qed.

(** ** The theorems above at concrete strings *)

(** "1234567890" appended to "abc" in a [StackString<8>]: five characters
    fit. *)
Lemma append_chars_truncates_witness :
  valid_capacity 8 /\ wf 8 abc8
  /\ exists s',
       append_sv 8 abc8 digits10 = Some s'
       /\ m_size s' = 8
       /\ take 5 (drop 3 (m_data s')) = [x31; x32; x33; x34; x35]
       /\ at_ s' 8 = Some x00.
Proof.
  assert (HN : valid_capacity 8) by done.
  assert (Hwf : wf 8 abc8) by done.
  split; [exact HN|]. split; [exact Hwf|].
  destruct (append_chars_truncates 8 abc8 HN Hwf) as [Hsv _].
  destruct (Hsv digits10) as (s' & Happ & Hsize & Hcopy & Hterm & _).
  simpl in Hsize, Hcopy. rewrite Hsize in Hterm.
  exists s'. repeat split; assumption.
Defined.

(** 12345 appended to "123" in a [StackString<5>]: two characters are free,
    nothing is committed. *)
Lemma append_int_atomic_witness :
  valid_capacity 5
  /\ wf 5 {| m_data := [x31; x32; x33; x00; xff; xff]; m_size := 3 |}
  /\ exists s',
       append_int 5 [x41; x42]
         {| m_data := [x31; x32; x33; x00; xff; xff]; m_size := 3 |} 12345
       = Some s'
       /\ m_size s' = 3
       /\ view s' = [x31; x32; x33].
Proof.
  set (s := {| m_data := [x31; x32; x33; x00; xff; xff]; m_size := 3 |}).
  assert (HN : valid_capacity 5) by done.
  assert (Hwf : wf 5 s) by done.
  split; [exact HN|]. split; [exact Hwf|].
  destruct (append_int_atomic 5 [x41; x42] s 12345 HN Hwf) as [_ Hnofit].
  destruct Hnofit as (s' & Happ & Hsize & Hview & _); [simpl; lia|].
  exists s'. repeat split; assumption.
Defined.

(** "abc" and "1234567890" into a fresh [StackString<8>]. *)
Lemma append_twice_is_append_concat_witness :
  valid_capacity 8
  /\ Z.of_nat (length (replicate 9 xff)) = 8 + 1
  /\ exists s0 sa sb sc,
       ctor_default (replicate 9 xff) = Some s0
       /\ append_sv 8 s0 [x61; x62; x63] = Some sa
       /\ append_sv 8 sa digits10 = Some sb
       /\ append_sv 8 s0 ([x61; x62; x63] ++ digits10) = Some sc
       /\ m_size sb = m_size sc
       /\ view sb = view sc.
Proof.
  assert (HN : valid_capacity 8) by done.
  assert (Hinit : Z.of_nat (length (replicate 9 xff)) = 8 + 1) by done.
  split; [exact HN|]. split; [exact Hinit|].
  destruct (append_twice_is_append_concat 8 (replicate 9 xff) HN Hinit)
    as [Hviews _].
  exact (Hviews [x61; x62; x63] digits10).
Defined.

(** [resize(100, 'A')] on "abc" in a [StackString<8>]. *)
Lemma resize_and_clear_witness :
  valid_capacity 8 /\ wf 8 abc8
  /\ exists s',
       resize 8 abc8 100 x41 = Some s'
       /\ m_size s' = 8
       /\ at_ s' 5 = Some x41
       /\ at_ s' 8 = Some x00.
Proof.
  assert (HN : valid_capacity 8) by done.
  assert (Hwf : wf 8 abc8) by done.
  split; [exact HN|]. split; [exact Hwf|].
  destruct (resize_and_clear 8 abc8 HN Hwf) as [Hresize _].
  destruct (Hresize 100 x41)
    as (s' & Hres & Hsize & _ & Hfill & Hterm & _); [lia|].
  exists s'. split; [exact Hres|]. split; [exact Hsize|].
  split; [|exact Hterm]. apply Hfill. simpl. lia.
Defined.

(** Move construction from "ab". *)
Lemma copy_and_move_witness :
  valid_capacity 2 /\ wf 2 ab
  /\ exists t o',
       ctor_move [xff; xff; xff] ab = Some (t, o')
       /\ m_size t = 2
       /\ take 3 (m_data t) = [x61; x62; x00]
       /\ m_size o' = 0.
Proof.
  assert (HN : valid_capacity 2) by done.
  assert (Hwf : wf 2 ab) by done.
  split; [exact HN|]. split; [exact Hwf|].
  destruct (copy_and_move 2 ab HN Hwf) as [Hctor _].
  destruct (Hctor [xff; xff; xff] eq_refl)
    as [_ (t & o' & Hmove & Hsize & Hbytes & Hempty & _)].
  exists t, o'. repeat split; assumption.
Defined.

(** * More of the code *)

(** ** The length of a decimal representation *)

Lemma uint_chars_length u : length (uint_chars u) = Decimal.nb_digits u.
Proof. induction u; simpl; congruence. Qed.

Lemma of_uint_acc_lower (l : Decimal.uint) (acc : positive) :
  (Z.pos acc * 10 ^ Z.of_nat (Decimal.nb_digits l)
   <= Z.pos (Pos.of_uint_acc l acc)).
Proof.
  revert acc. induction l as [|l IH|l IH|l IH|l IH|l IH|l IH|l IH|l IH|l IH|l IH];
    intros acc; simpl Pos.of_uint_acc; simpl Decimal.nb_digits;
    [rewrite Z.pow_0_r; lia|..];
    rewrite Nat2Z.inj_succ, Z.pow_succ_r by lia;
    (etransitivity; [|apply IH]);
    assert (0 < 10 ^ Z.of_nat (Decimal.nb_digits l)) by (apply Z.pow_pos_nonneg; lia);
    nia.
Qed.

(** A positive number with [n] decimal digits is at least [10 ^ (n - 1)]. *)
Lemma to_uint_lower (p : positive) :
  10 ^ (Z.of_nat (Decimal.nb_digits (Pos.to_uint p)) - 1) <= Z.pos p.
Proof.
  pose proof (DecimalPos.Unsigned.of_to p) as Hof.
  pose proof (DecimalPos.Unsigned.to_of (Pos.to_uint p)) as Hto.
  rewrite Hof in Hto. simpl in Hto.
  pose proof (DecimalPos.Unsigned.to_uint_nonzero p) as Hnz.
  destruct (Pos.to_uint p) as [|l|l|l|l|l|l|l|l|l|l] eqn:Hd;
    [ simpl in Hof; discriminate
    | exfalso; unfold Decimal.unorm in Hto; simpl in Hto;
      pose proof (DecimalFacts.nb_digits_nzhead l) as Hle;
      destruct (Decimal.nzhead l) eqn:Hl; simplify_eq; simpl in Hle; lia
    | .. ].
  all: simpl in Hof; injection Hof as Hof; rewrite <- Hof;
    simpl Decimal.nb_digits; rewrite Nat2Z.inj_succ;
    replace (Z.succ (Z.of_nat (Decimal.nb_digits l)) - 1)
      with (Z.of_nat (Decimal.nb_digits l)) by lia;
    (etransitivity; [|apply of_uint_acc_lower]);
    assert (0 < 10 ^ Z.of_nat (Decimal.nb_digits l))
      by (apply Z.pow_pos_nonneg; lia);
    nia.
Qed.

Lemma to_uint_digits_le (p : positive) (n : Z) :
  0 <= n -> Z.pos p < 10 ^ n ->
  Z.of_nat (Decimal.nb_digits (Pos.to_uint p)) <= n.
Proof.
  intros Hn Hp. pose proof (to_uint_lower p) as Hlow.
  destruct (Z.le_gt_cases (Z.of_nat (Decimal.nb_digits (Pos.to_uint p))) n)
    as [|Hgt]; [done|].
  assert (10 ^ n <= 10 ^ (Z.of_nat (Decimal.nb_digits (Pos.to_uint p)) - 1))
    by (apply Z.pow_le_mono_r; lia).
  lia.
Qed.

Lemma decimal_chars_nonempty value : (1 <= length (decimal_chars value))%nat.
Proof.
  unfold decimal_chars. destruct value as [|p|p]; simpl; try lia.
  rewrite uint_chars_length.
  pose proof (DecimalPos.Unsigned.to_uint_nonnil p) as Hnn.
  destruct (Pos.to_uint p); simpl; try lia. done.
Qed.

Lemma available_wf N s : valid_capacity N -> wf N s ->
  available N s = N - m_size s.
Proof.
  intros HN [Hsz _]. unfold valid_capacity in HN.
  unfold available, size_sub. apply size_wrap_small. lia.
Qed.

(** X14: the decimal representation of every integer of at most 64 bits,
    signed or unsigned, has at most [max_integer_decimal_chars] characters,
    and both extreme values need them all; so an integer [append] into a
    well-formed string with that much room always commits its digits. *)
Theorem integer_fits_in_max_chars N (scratch : list byte) s value :
  valid_capacity N -> wf N s ->
  - 2 ^ 63 <= value <= SIZE_MAX ->
  Z.of_nat (length (decimal_chars value)) <= max_integer_decimal_chars
  /\ Z.of_nat (length (decimal_chars SIZE_MAX)) = max_integer_decimal_chars
  /\ Z.of_nat (length (decimal_chars (- 2 ^ 63))) = max_integer_decimal_chars
  /\ (max_integer_decimal_chars <= available N s ->
      exists s',
        append_int N scratch s value = Some s'
        /\ view s' = view s ++ decimal_chars value
        /\ m_size s < m_size s' <= m_size s + max_integer_decimal_chars
        /\ at_ s' (m_size s') = Some x00).
Proof.
  intros HN Hwf Hrange.
  assert (Hlen : Z.of_nat (length (decimal_chars value))
                 <= max_integer_decimal_chars).
  { unfold decimal_chars, max_integer_decimal_chars.
    destruct value as [|p|p]; simpl; [lia| |]; rewrite uint_chars_length.
    - apply to_uint_digits_le; [lia|].
      unfold SIZE_MAX, size_bits in Hrange. lia.
    - pose proof (to_uint_digits_le p 19 ltac:(lia)) as H19.
      rewrite Nat2Z.inj_succ. enough (Z.pos p < 10 ^ 19) by lia. lia. }
  split; [exact Hlen|]. split; [reflexivity|]. split; [reflexivity|].
  intros Hroom. rewrite (available_wf N s HN Hwf) in Hroom.
  destruct (append_int_fits N scratch s value HN Hwf ltac:(lia))
    as (s' & Happ & Hsize & Hview & Hterm & _).
  exists s'. split; [done|]. split; [done|]. split; [|done].
  pose proof (decimal_chars_nonempty value). lia.
Qed.

(** ** [append(char)] *)

(** X1: on a well-formed string [append(char)] drops the character when the
    string is full and leaves the string as it is; otherwise the character
    becomes the last one, [m_size] grows by one and the terminator follows
    it. *)
Theorem append_char_appends_or_drops N s (c : byte) :
  valid_capacity N -> wf N s ->
  (m_size s = N -> append_char N s c = Some s)
  /\ (m_size s < N ->
      exists s',
        append_char N s c = Some s'
        /\ m_size s' = m_size s + 1
        /\ view s' = view s ++ [c]
        /\ at_ s' (m_size s) = Some c
        /\ at_ s' (m_size s') = Some x00
        /\ length (m_data s') = length (m_data s)).
Proof.
  intros HN Hwf.
  destruct (append_char_effect N s c HN Hwf) as (s' & Happ & Hwf' & Hfull & Hroom).
  split.
  - intros E. by rewrite Happ, (Hfull E).
  - intros Hlt. destruct (Hroom Hlt) as (Hsize & Hview & Hterm).
    exists s'. split; [done|]. split; [done|]. split; [done|].
    destruct Hwf as [Hsz Hl], Hwf' as [Hsz' Hl'].
    split; [|split; [done|lia]].
    rewrite at_nat by lia.
    assert (Hlook : view s' !! Z.to_nat (m_size s) = Some c).
    { rewrite Hview. unfold view.
      rewrite lookup_app_r by (rewrite length_take; lia).
      rewrite length_take.
      by replace (Z.to_nat (m_size s)
                  - Z.to_nat (m_size s) `min` length (m_data s))%nat
        with 0%nat by lia. }
    unfold view in Hlook. by apply lookup_take_Some in Hlook as [? _].
Qed.

(** ** What every [append] has in common *)

(** One step of appending characters: the part that fits is added. *)
Lemma append_chars_step N (scratch : list byte) s (a : arg) chars :
  valid_capacity N -> wf N s -> arg_chars a = Some chars ->
  exists s',
    append N scratch s a = Some s'
    /\ wf N s'
    /\ m_size s' = m_size s + Z.min (Z.of_nat (length chars)) (N - m_size s)
    /\ view s' = view s ++ take (Z.to_nat (N - m_size s)) chars
    /\ (terminated s -> terminated s').
Proof.
  intros HN Hwf Hchars.
  assert (Hsv : forall sv : list byte, exists s',
    append_sv N s sv = Some s'
    /\ wf N s'
    /\ m_size s' = m_size s + Z.min (Z.of_nat (length sv)) (N - m_size s)
    /\ view s' = view s ++ take (Z.to_nat (N - m_size s)) sv
    /\ (terminated s -> terminated s')).
  { intros sv.
    destruct (append_sv_view N s sv HN Hwf) as (s' & Happ & Hwf' & Hsize & Hv).
    destruct (append_sv_effect N s HN Hwf sv) as (s2 & Happ2 & _ & _ & Ht & _).
    assert (s2 = s') as -> by congruence.
    exists s'. do 4 (split; [done|]). intros _. exact Ht. }
  destruct a as [[mem|]|sv|c|value]; unfold append; simpl in Hchars.
  - destruct (strlen mem) as [len|] eqn:Hlen; simpl in Hchars; [|done].
    injection Hchars as <-.
    rewrite (append_cstr_as_sv N s mem len Hlen). apply Hsv.
  - injection Hchars as <-. exists s. simpl.
    rewrite take_nil, app_nil_r. destruct Hwf. repeat split; try done; lia.
  - injection Hchars as <-. apply Hsv.
  - injection Hchars as <-.
    destruct (append_char_effect N s c HN Hwf)
      as (s' & Happ & Hwf' & Hfull & Hroom).
    exists s'. split; [done|]. split; [done|].
    destruct Hwf as [Hsz Hl].
    destruct (Z.eq_dec (m_size s) N) as [E|E].
    + rewrite (Hfull E). simpl.
      replace (Z.to_nat (N - m_size s)) with 0%nat by lia.
      rewrite take_0, app_nil_r. repeat split; try done; lia.
    + destruct Hroom as (Hsize & Hview & Hterm); [lia|].
      simpl. rewrite take_ge by (simpl; lia).
      repeat split; try done; lia.
  - done.
Qed.

(** An integer append returns, and only adds at the end. *)
Lemma append_int_extends N (scratch : list byte) s value :
  valid_capacity N -> wf N s ->
  exists s',
    append_int N scratch s value = Some s'
    /\ view s `prefix_of` view s' /\ m_size s <= m_size s'.
Proof.
  intros HN Hwf.
  destruct (Z.le_gt_cases (Z.of_nat (length (decimal_chars value)))
              (N - m_size s)) as [H|H].
  - destruct (append_int_fits N scratch s value HN Hwf H)
      as (s' & Happ & Hsize & Hview & _).
    exists s'. split; [done|]. split; [|lia].
    rewrite Hview. by apply prefix_app_r.
  - destruct (append_int_too_large N scratch s value HN Hwf H)
      as (s' & Happ & Hsize & Hview & _).
    exists s'. split; [done|]. split; [|lia]. by rewrite Hview.
Qed.

Lemma append_extends N (scratch : list byte) s (a : arg) s' :
  valid_capacity N -> wf N s -> append N scratch s a = Some s' ->
  view s `prefix_of` view s' /\ m_size s <= m_size s'.
Proof.
  intros HN Hwf Happ. destruct (arg_chars a) as [chars|] eqn:Hchars.
  - destruct (append_chars_step N scratch s a chars HN Hwf Hchars)
      as (s2 & Happ2 & _ & Hsize & Hview & _).
    assert (s2 = s') as -> by congruence. destruct Hwf.
    split; [|lia]. rewrite Hview. by apply prefix_app_r.
  - destruct a as [[mem|]|sv|c|value]; simpl in Hchars; try done.
    + unfold append, append_cstr in Happ.
      destruct (strlen mem); simpl in *; done.
    + destruct (append_int_extends N scratch s value HN Hwf)
        as (s2 & Happ2 & Hpre & Hle).
      unfold append in Happ. by assert (s2 = s') as -> by congruence.
Qed.

(** X2: whatever the argument (C string, view, character or integer) and
    whatever a failing [to_chars] leaves behind, an [append] that returns on
    a well-formed string only adds at the end: the old characters are a
    prefix of the new ones, [m_size] does not shrink and stays within the
    capacity, and the storage keeps its size.  It returns for every
    argument but a C string without terminator. *)
Theorem append_only_extends N (scratch : list byte) s (a : arg) :
  valid_capacity N -> wf N s ->
  (forall s',
      append N scratch s a = Some s' ->
      view s `prefix_of` view s'
      /\ m_size s <= m_size s' <= N
      /\ length (m_data s') = length (m_data s))
  /\ ((forall mem, a = arg_cstr (Some mem) -> c_string mem) ->
      is_Some (append N scratch s a)).
Proof.
  intros HN Hwf. split.
  - intros s' Happ.
    pose proof (append_wf N scratch s a s' HN Hwf Happ) as [Hsz' Hl'].
    destruct (append_extends N scratch s a s' HN Hwf Happ) as [Hpre Hle].
    destruct Hwf as [Hsz Hl]. split; [done|]. split; lia.
  - intros Hstr. destruct (arg_chars a) as [chars|] eqn:Hchars.
    + destruct (append_chars_step N scratch s a chars HN Hwf Hchars)
        as (s2 & Happ2 & _). by exists s2.
    + destruct a as [[mem|]|sv|c|value]; simpl in Hchars; try done.
      * destruct (Hstr mem eq_refl) as [len Hlen].
        by rewrite Hlen in Hchars.
      * destruct (append_int_extends N scratch s value HN Hwf)
          as (s2 & Happ2 & _). by exists s2.
Qed.

(** ** [available()] as a check before [append] *)

(** X3: on a well-formed string [available()] is [N - m_size].  A view no
    longer than that is appended whole and uses up its length of the room;
    a longer one is cut to the room that was left, and the string is full
    afterwards. *)
Theorem available_decides_truncation N s (sv : list byte) :
  valid_capacity N -> wf N s ->
  available N s = N - m_size s
  /\ exists s',
       append_sv N s sv = Some s'
       /\ (Z.of_nat (length sv) <= available N s ->
           view s' = view s ++ sv
           /\ available N s' = available N s - Z.of_nat (length sv))
       /\ (available N s < Z.of_nat (length sv) ->
           view s' = view s ++ take (Z.to_nat (available N s)) sv
           /\ m_size s' = N
           /\ available N s' = 0).
Proof.
  intros HN Hwf. pose proof (available_wf N s HN Hwf) as Hav.
  split; [done|].
  destruct (append_sv_view N s sv HN Hwf) as (s' & Happ & Hwf' & Hsize & Hv).
  pose proof (available_wf N s' HN Hwf') as Hav'.
  exists s'. split; [done|]. rewrite Hav, Hav', Hv. split; intros H.
  - rewrite take_ge by lia. split; [done|lia].
  - split; [done|]. lia.
Qed.

(** X20: a chain of appends, [s.append(a).append(b)] or [s << a << b], with
    arguments of any kind: if it returns, the result is well formed and
    starts with the characters the string had; nothing in the chain can
    remove or change a character that is already there. *)
Theorem append_chain_only_extends N (scratch : list byte) (args : list arg) :
  valid_capacity N ->
  forall s s',
    wf N s -> append_all N scratch s args = Some s' ->
    wf N s'
    /\ view s `prefix_of` view s'
    /\ m_size s <= m_size s' <= N.
Proof.
  intros HN. induction args as [|a args IH]; intros s s' Hwf; simpl.
  - intros [= <-]. destruct Hwf. split; [done|]. split; [done|lia].
  - destruct (append N scratch s a) as [s1|] eqn:Ha; simpl; [|done].
    intros Hrest.
    pose proof (append_wf N scratch s a s1 HN Hwf Ha) as Hwf1.
    pose proof (append_extends N scratch s a s1 HN Hwf Ha) as Hstep.
    destruct (IH s1 s' Hwf1 Hrest) as (Hwf' & Hpre & Hle).
    split; [done|]. destruct Hstep as [Hpre1 Hle1].
    split; [by etransitivity|lia].
Qed.

(** ** A run of appends, and the variadic constructor *)

Lemma append_all_chars N (scratch : list byte) (args : list arg)
    (chars : list (list byte)) :
  valid_capacity N ->
  Forall2 (fun a c => arg_chars a = Some c) args chars ->
  forall s, wf N s ->
  exists s',
    append_all N scratch s args = Some s'
    /\ wf N s'
    /\ view s' = view s ++ take (Z.to_nat (N - m_size s)) (concat chars)
    /\ (terminated s -> terminated s').
Proof.
  intros HN. induction 1 as [|a c args chars Hc _ IH]; intros s Hwf; simpl.
  - exists s. rewrite take_nil, app_nil_r. do 3 (split; [done|]). tauto.
  - destruct (append_chars_step N scratch s a c HN Hwf Hc)
      as (s1 & -> & Hwf1 & Hsize1 & Hview1 & Ht1).
    simpl. destruct (IH s1 Hwf1) as (s' & -> & Hwf' & Hview & Ht).
    exists s'. split; [done|]. split; [done|]. split; [|tauto].
    rewrite Hview, Hview1, <- app_assoc. f_equal.
    rewrite take_app. f_equal. destruct Hwf as [Hsz _].
    destruct (Z.le_gt_cases (Z.of_nat (length c)) (N - m_size s)).
    + rewrite Hsize1, Z.min_l by lia. f_equal. lia.
    + rewrite Hsize1, Z.min_r by lia.
      replace (Z.to_nat (N - (m_size s + (N - m_size s)))) with 0%nat by lia.
      replace (Z.to_nat (N - m_size s) - length c)%nat with 0%nat by lia.
      done.
Qed.

(** X4: the variadic constructor with arguments that are C strings (null or
    terminated), views and characters builds the first [N] characters of
    their concatenation, in the order of the arguments, and ends them with
    the terminator; a null pointer among them adds nothing. *)
Theorem ctor_variadic_concatenates N (scratch init : list byte)
    (args : list arg) (chars : list (list byte)) :
  valid_capacity N -> Z.of_nat (length init) = N + 1 ->
  Forall2 (fun a c => arg_chars a = Some c) args chars ->
  exists s,
    ctor_variadic N scratch init args = Some s
    /\ view s = take (Z.to_nat N) (concat chars)
    /\ m_size s = Z.min N (Z.of_nat (length (concat chars)))
    /\ at_ s (m_size s) = Some x00.
Proof.
  intros HN Hinit Hargs.
  destruct (ctor_default_wf N init HN Hinit) as (s0 & H0 & Hwf0 & Hsz0 & Ht0).
  unfold ctor_default in H0. unfold ctor_variadic.
  destruct (store init 0 x00) as [d|]; simpl in *; [|done].
  injection H0 as <-.
  destruct (append_all_chars N scratch args chars HN Hargs _ Hwf0)
    as (s & Happ & Hwf & Hview & Hterm).
  exists s. split; [done|]. simpl in Hview.
  replace (N - 0) with N in Hview by lia.
  assert (Hview' : view s = take (Z.to_nat N) (concat chars)) by exact Hview.
  clear Hview. rename Hview' into Hview.
  split; [done|]. split; [|by apply Hterm].
  destruct Hwf as [Hsz Hl].
  assert (Hlv : length (view s) = Z.to_nat (m_size s))
    by (unfold view; rewrite length_take; lia).
  rewrite Hview, length_take in Hlv. unfold valid_capacity in HN. lia.
Qed.

(** ** Comparison and conversion *)

Lemma sv_eqb_eq (a b : list byte) : sv_eqb a b = true <-> a = b.
Proof.
  revert b. induction a as [|x a IH]; intros [|y b]; simpl; try done.
  rewrite andb_true_iff, IH. split.
  - intros [Hxy ->]. by apply Byte.byte_dec_bl in Hxy as ->.
  - intros [= -> ->]. split; [|done]. by apply Byte.byte_dec_lb.
Qed.

Lemma sv_eqb_sym (a b : list byte) : sv_eqb a b = sv_eqb b a.
Proof.
  destruct (sv_eqb a b) eqn:E1, (sv_eqb b a) eqn:E2; try done.
  - apply sv_eqb_eq in E1. symmetry in E1. apply sv_eqb_eq in E1. congruence.
  - apply sv_eqb_eq in E2. symmetry in E2. apply sv_eqb_eq in E2. congruence.
Qed.

Lemma view_length N s : wf N s -> length (view s) = Z.to_nat (m_size s).
Proof. intros [Hsz Hl]. unfold view. rewrite length_take. lia. Qed.

Lemma view_lookup N s (i : Z) :
  wf N s -> 0 <= i < m_size s -> view s !! Z.to_nat i = at_ s i.
Proof.
  intros [Hsz Hl] Hi. rewrite at_nat by lia. unfold view.
  apply lookup_take_lt. lia.
Qed.

(** [strlen] stops at the first terminator there is. *)
Lemma strlen_first_nul (mem : list byte) (n : nat) :
  mem !! n = Some x00 -> Forall (fun c => c <> x00) (take n mem) ->
  strlen mem = Some (Z.of_nat n).
Proof.
  revert n. induction mem as [|c mem IH]; intros [|n]; simpl; try done.
  - by intros [= ->].
  - intros Hn Hall. apply Forall_cons in Hall as [Hc Hall].
    destruct (Byte.eqb c x00) eqn:E; [by apply Byte.byte_dec_bl in E|].
    rewrite (IH n Hn Hall). simpl. f_equal. lia.
Qed.

Lemma strlen_exists (mem : list byte) (n : nat) :
  mem !! n = Some x00 ->
  exists k, strlen mem = Some k /\ 0 <= k <= Z.of_nat n.
Proof.
  revert n. induction mem as [|c mem IH]; intros n; simpl; [done|].
  destruct (Byte.eqb c x00) eqn:E.
  - intros _. exists 0. split; [done|lia].
  - destruct n as [|n]; simpl.
    + intros [= ->]. done.
    + intros Hn. destruct (IH n Hn) as (k & -> & Hk).
      exists (Z.succ k). split; [done|lia].
Qed.

(** X9: [operator==] between two well-formed strings is true exactly when
    they have the same [m_size] and the same characters below it; what the
    storage holds from [m_size] on plays no part.  It is reflexive,
    symmetric and transitive, [operator!=] is its negation, and comparing
    with a view is comparing with the characters of the view. *)
Theorem operator_eq_compares_characters N s t :
  wf N s -> wf N t ->
  (operator_eq s t = true
   <-> m_size s = m_size t
       /\ forall i, 0 <= i < m_size s -> at_ s i = at_ t i)
  /\ operator_ne s t = negb (operator_eq s t)
  /\ operator_eq s s = true
  /\ operator_eq s t = operator_eq t s
  /\ (forall u, operator_eq s t = true -> operator_eq t u = true ->
                operator_eq s u = true)
  /\ (forall sv, operator_eq_sv s sv = true <-> view s = sv)
  /\ (forall sv, operator_ne_sv s sv = negb (operator_eq_sv s sv)).
Proof.
  intros Hs Ht. unfold operator_eq, operator_ne, operator_eq_sv.
  split; [|split; [done|split; [by apply sv_eqb_eq|split; [|split]]]].
  - rewrite sv_eqb_eq. split.
    + intros Hv. pose proof (view_length N s Hs) as Hls.
      pose proof (view_length N t Ht) as Hlt. rewrite Hv in Hls.
      pose proof Hs as [Hsz _]. pose proof Ht as [Htz _].
      assert (m_size s = m_size t) as E by lia. split; [done|].
      intros i Hi.
      rewrite <- (view_lookup N s i Hs Hi).
      rewrite <- (view_lookup N t i Ht ltac:(lia)). by rewrite Hv.
    + intros [E Hchars]. apply list_eq. intros j.
      destruct (decide (j < Z.to_nat (m_size s))%nat) as [Hj|Hj].
      * specialize (Hchars (Z.of_nat j) ltac:(lia)).
        pose proof (view_lookup N s (Z.of_nat j) Hs ltac:(lia)) as H1.
        pose proof (view_lookup N t (Z.of_nat j) Ht ltac:(lia)) as H2.
        rewrite Nat2Z.id in H1, H2. congruence.
      * rewrite !lookup_ge_None_2; [done | |];
          erewrite view_length by done; lia.
  - apply sv_eqb_sym.
  - intros u. rewrite !sv_eqb_eq. congruence.
  - split; [|done]. intros sv. apply sv_eqb_eq.
Qed.

(** X5: a string constructed from the view of a well-formed string, with
    any capacity that holds the characters, has the same [m_size] and the
    same characters, is terminated, and compares equal to the view. *)
Theorem view_round_trip N M s (init : list byte) :
  wf N s -> valid_capacity M -> Z.of_nat (length init) = M + 1 ->
  m_size s <= M ->
  exists s',
    ctor_sv M init (view s) = Some s'
    /\ m_size s' = m_size s
    /\ view s' = view s
    /\ at_ s' (m_size s') = Some x00
    /\ operator_eq_sv s' (view s) = true.
Proof.
  intros Hwf HM Hinit Hfit. pose proof (view_length N s Hwf) as Hlen.
  pose proof (raw_storage_wf M init HM Hinit) as Hraw.
  destruct Hwf as [Hsz _]. unfold ctor_sv.
  destruct (append_sv_view M _ (view s) HM Hraw)
    as (s' & Happ & Hwf' & Hsize & Hview).
  destruct (append_sv_effect M _ HM Hraw (view s))
    as (s2 & Happ2 & _ & _ & Hterm & _).
  assert (s2 = s') as -> by congruence. simpl in *.
  exists s'. split; [done|]. split; [lia|].
  assert (Hv : view s' = view s).
  { rewrite Hview. unfold view at 1. simpl. apply take_ge. lia. }
  split; [done|]. split; [done|]. unfold operator_eq_sv.
  by apply sv_eqb_eq.
Qed.

(** X6: read as a C string, the storage of a well-formed, terminated string
    ends at its first terminator, at [m_size] or before it, and at [m_size]
    exactly when none of the characters is a terminator.  A string
    constructed from [c_str()] therefore holds the characters up to that
    point: all of them, and it compares equal, if and only if the original
    has no terminator among its characters. *)
Theorem c_str_round_trip N s (init : list byte) :
  valid_capacity N -> wf N s -> terminated s ->
  Z.of_nat (length init) = N + 1 ->
  exists k s',
    strlen (c_str s) = Some k
    /\ 0 <= k <= m_size s
    /\ (k = m_size s <-> Forall (fun c => c <> x00) (view s))
    /\ ctor_cstr N init (Some (c_str s)) = Some s'
    /\ view s' = take (Z.to_nat k) (view s)
    /\ (operator_eq s' s = true <-> k = m_size s)
    /\ operator_eq_cstr s (Some (c_str s)) = Some (operator_eq s' s).
Proof.
  intros HN Hwf Hterm Hinit. pose proof Hwf as [Hsz Hl].
  unfold terminated in Hterm. rewrite at_nat in Hterm by lia.
  unfold c_str.
  destruct (strlen_exists _ _ Hterm) as (k & Hk & Hkr).
  destruct (strlen_terminator _ _ Hk) as [Hnul Hnz].
  exists k.
  pose proof (raw_storage_wf N init HN Hinit) as Hraw.
  unfold ctor_cstr. rewrite (append_cstr_as_sv N _ _ k Hk).
  destruct (append_sv_view N _ (take (Z.to_nat k) (m_data s)) HN Hraw)
    as (s' & Happ & Hwf' & Hsize & Hview).
  exists s'. simpl in Hview.
  assert (Hv : view s' = take (Z.to_nat k) (view s)).
  { rewrite Hview. unfold view at 1. simpl.
    rewrite take_take. unfold view. rewrite take_take. f_equal. lia. }
  assert (Hiff : k = m_size s <-> Forall (fun c => c <> x00) (view s)).
  { split.
    - intros E. subst k. exact Hnz.
    - intros Hall. destruct (Z.eq_dec k (m_size s)) as [|Hne]; [done|].
      exfalso. rewrite Forall_lookup in Hall.
      apply (Hall (Z.to_nat k) x00); [|done].
      unfold view. rewrite lookup_take_lt by lia. exact Hnul. }
  assert (Heq : operator_eq s' s = true <-> k = m_size s).
  { unfold operator_eq. rewrite sv_eqb_eq, Hv. split.
    - intros E. apply (f_equal length) in E.
      rewrite length_take, (view_length N s Hwf) in E. lia.
    - intros ->. apply take_ge. rewrite (view_length N s Hwf). lia. }
  do 2 (split; [done || lia|]). split; [done|]. split; [done|].
  split; [done|]. split; [done|].
  unfold operator_eq_cstr. simpl. rewrite Hk. simpl. f_equal.
  unfold operator_eq. rewrite Hv, sv_eqb_sym.
  replace (take (Z.to_nat k) (view s)) with (take (Z.to_nat k) (m_data s));
    [done|].
  unfold view. rewrite take_take. f_equal. lia.
Qed.

(** X7: growing a terminated string that has no terminator among its
    characters with [resize(count)], whose fill character defaults to the
    terminator, moves [m_size] to [min(count, N)] while [c_str()] still ends
    where it did: [size()] and [strlen(c_str())] then differ. *)
Theorem resize_default_fill_hides_growth N s (count : Z) :
  valid_capacity N -> wf N s ->
  Forall (fun c => c <> x00) (view s) ->
  m_size s < Z.min count N ->
  exists s',
    resize N s count x00 = Some s'
    /\ size s' = Z.min count N
    /\ strlen (c_str s') = Some (m_size s)
    /\ m_size s < size s'
    /\ take (Z.to_nat (m_size s)) (view s') = view s.
Proof.
  intros HN Hwf Hnz Hgrow. pose proof Hwf as [Hsz Hl].
  destruct (resize_effect N s HN Hwf count x00 ltac:(lia))
    as (s' & Hres & Hsize & Hkeep & Hfill & Hterm & _ & Hl').
  cbv zeta in *. exists s'. split; [done|]. split; [done|].
  assert (Hwf' : wf N s') by (unfold wf; lia).
  assert (Hpre : take (Z.to_nat (m_size s)) (m_data s') = view s).
  { apply list_eq. intros j. unfold view.
    destruct (decide (j < Z.to_nat (m_size s))%nat) as [Hj|Hj].
    - rewrite !lookup_take_lt by done.
      specialize (Hkeep (Z.of_nat j) ltac:(lia)).
      rewrite !at_nat, Nat2Z.id in Hkeep by lia. done.
    - rewrite !lookup_take_ge by lia. done. }
  split; [|split; [unfold size; lia|]].
  - unfold c_str. rewrite <- (Z2Nat.id (m_size s)) at 1 by lia.
    apply strlen_first_nul.
    + specialize (Hfill (m_size s) ltac:(lia)).
      by rewrite at_nat in Hfill by lia.
    + by rewrite Hpre.
  - unfold view at 1. rewrite take_take, <- Hpre. f_equal. lia.
Qed.

(** X8: a string constructed from a terminated C string compares equal to
    that C string exactly when the C string fits in the capacity; when it
    was cut, [operator!=] is true. *)
Theorem ctor_cstr_equals_argument_iff_fits N (init mem : list byte) (len : Z) :
  valid_capacity N -> Z.of_nat (length init) = N + 1 ->
  strlen mem = Some len ->
  exists s,
    ctor_cstr N init (Some mem) = Some s
    /\ m_size s = Z.min len N
    /\ (operator_eq_cstr s (Some mem) = Some true <-> len <= N)
    /\ (operator_ne_cstr s (Some mem) = Some true <-> N < len).
Proof.
  intros HN Hinit Hlen. pose proof (strlen_bounds _ _ Hlen) as Hb.
  pose proof (raw_storage_wf N init HN Hinit) as Hraw.
  unfold ctor_cstr. rewrite (append_cstr_as_sv N _ _ len Hlen).
  destruct (append_sv_view N _ (take (Z.to_nat len) mem) HN Hraw)
    as (s & Happ & Hwf & Hsize & Hview).
  exists s. split; [done|]. simpl in Hsize, Hview.
  rewrite length_take in Hsize. unfold valid_capacity in HN.
  split; [lia|].
  assert (Hv : view s = take (Z.to_nat (Z.min len N)) mem).
  { rewrite Hview. simpl. rewrite take_take. f_equal. lia. }
  assert (Heq : sv_eqb (view s) (take (Z.to_nat len) mem) = true
                <-> len <= N).
  { rewrite sv_eqb_eq, Hv. split.
    - intros E. apply (f_equal length) in E. rewrite !length_take in E. lia.
    - intros Hle. f_equal. lia. }
  unfold operator_ne_cstr, operator_eq_cstr. simpl. rewrite Hlen. simpl.
  destruct (sv_eqb (view s) (take (Z.to_nat len) mem)); simpl.
  - split; [tauto|]. split; [done|]. intros Hlt.
    assert (len <= N) by (by apply Heq). lia.
  - split.
    + split; [done|]. intros Hle. by apply Heq in Hle.
    + split; [|done]. intros _.
      destruct (Z.le_gt_cases len N) as [Hle|]; [|lia].
      by apply Heq in Hle.
Qed.

(** X11: [s[s.size() - 1]], the way the examples read the last character:
    on a non-empty well-formed string it is the last character of the
    string; on an empty one the index wraps to [SIZE_MAX] and the access is
    outside the storage. *)
Theorem last_character_access N s :
  valid_capacity N -> wf N s ->
  (0 < m_size s ->
   at_ s (size_sub (size s) 1) = last (view s)
   /\ is_Some (at_ s (size_sub (size s) 1)))
  /\ (m_size s = 0 ->
      size_sub (size s) 1 = SIZE_MAX
      /\ at_ s (size_sub (size s) 1) = None).
Proof.
  intros HN Hwf. pose proof Hwf as [Hsz Hl]. unfold valid_capacity in HN.
  unfold size, size_sub. split.
  - intros Hpos. rewrite size_wrap_small by lia.
    rewrite <- (view_lookup N s) by (done || lia).
    rewrite last_lookup, (view_length N s Hwf).
    replace (Init.Nat.pred (Z.to_nat (m_size s)))
      with (Z.to_nat (m_size s - 1)) by lia.
    split; [done|]. apply lookup_lt_is_Some.
    rewrite (view_length N s Hwf). lia.
  - intros ->. split; [reflexivity|].
    change (size_wrap (0 - 1)) with SIZE_MAX.
    rewrite at_nat by (unfold SIZE_MAX, size_bits; lia).
    apply lookup_ge_None_2. unfold SIZE_MAX, size_bits in *. lia.
Qed.

(** ** Assignment from a C string *)

(** X10: [s = str] with a terminated C string replaces the contents of a
    well-formed [s] by the first [min(strlen(str), N)] characters of [str],
    terminated, whatever [s] held before; the temporary is gone afterwards
    and no other object of the store has changed. *)
Theorem assign_cstr_replaces_contents N (h : gmap nat StackString)
    (this tmp : nat) t (init mem : list byte) (len : Z) :
  valid_capacity N ->
  h !! this = Some t -> wf N t -> h !! tmp = None ->
  Z.of_nat (length init) = N + 1 -> strlen mem = Some len ->
  exists t',
    assign_cstr N h this tmp init (Some mem) = Some (<[this := t']> h)
    /\ m_size t' = Z.min len N
    /\ view t' = take (Z.to_nat (Z.min len N)) mem
    /\ at_ t' (m_size t') = Some x00
    /\ length (m_data t') = length (m_data t).
Proof.
  intros HN Hthis Hwft Htmp Hinit Hlen.
  pose proof (strlen_bounds _ _ Hlen) as Hb.
  pose proof (raw_storage_wf N init HN Hinit) as Hraw.
  assert (Hne : this <> tmp) by congruence.
  assert (Hne' : tmp <> this) by congruence.
  unfold assign_cstr, ctor_cstr.
  rewrite (append_cstr_as_sv N _ _ len Hlen).
  destruct (append_sv_view N _ (take (Z.to_nat len) mem) HN Hraw)
    as (o & Happ & Hwfo & Hsize & Hview).
  destruct (append_sv_effect N _ HN Hraw (take (Z.to_nat len) mem))
    as (o2 & Happ2 & _ & _ & Hterm & _).
  assert (o2 = o) as -> by congruence.
  rewrite Happ. simpl in *. rewrite length_take in Hsize.
  unfold move_assign.
  rewrite (lookup_insert_ne _ tmp this) by done. rewrite Hthis. simpl.
  rewrite lookup_insert_eq. simpl.
  rewrite decide_True by done.
  pose proof Hwft as [_ Hlt].
  destruct (copy_from_effect N (m_data t) o Hlt Hwfo)
    as (t' & Hcopy & Hsz' & Hbytes & Hat & _ & Hwf').
  destruct (clear_effect N o HN Hwfo) as (o' & Hclr & _).
  rewrite Hcopy. simpl. rewrite Hclr. simpl.
  exists t'. split.
  - f_equal. rewrite delete_insert_eq, delete_insert_ne by done.
    rewrite delete_insert_eq, delete_id by done. done.
  - unfold valid_capacity in HN. pose proof Hwfo as [Hszo _].
    split; [lia|]. split; [|split].
    + assert (Hvv : view t' = view o).
      { unfold view. rewrite Hsz'.
        replace (take (Z.to_nat (m_size o)) (m_data t'))
          with (take (Z.to_nat (m_size o))
                  (take (Z.to_nat (m_size o + 1)) (m_data t')))
          by (rewrite take_take; f_equal; lia).
        rewrite Hbytes, take_take. f_equal. lia. }
      rewrite Hvv, Hview, take_take. f_equal. lia.
    + by rewrite Hat.
    + destruct Hwf' as [_ Hl']. lia.
Qed.

(** ** Invariants of the observable states *)

(** X12: in every state a program can observe, [size()] is between 0 and
    [max_size()], [size() + available()] is [max_size()], the view has
    [size()] characters, the storage has [max_size() + 1], and [empty()]
    says that the view has no character. *)
Theorem reachable_state_bounds N s :
  valid_capacity N -> reachable N s ->
  0 <= size s <= max_size N s
  /\ size s + available N s = max_size N s
  /\ Z.of_nat (length (view s)) = size s
  /\ Z.of_nat (length (c_str s)) = max_size N s + 1
  /\ (empty s = true <-> view s = []).
Proof.
  intros HN Hreach. pose proof (reachable_wf N s HN Hreach) as Hwf.
  pose proof (available_wf N s HN Hwf) as Hav.
  pose proof (view_length N s Hwf) as Hlen.
  destruct Hwf as [Hsz Hl]. unfold size, max_size, c_str, empty.
  split; [done|]. split; [lia|]. split; [lia|]. split; [done|].
  rewrite Z.eqb_eq. split.
  - intros E. apply length_zero_iff_nil. lia.
  - intros E. rewrite E in Hlen. simpl in Hlen. lia.
Qed.

(** X13: on a well-formed, terminated string every mutator leaves the
    terminator at the new [m_size]: an append of a C string (null or
    terminated), a view or a character; an append of an integer that fits,
    and one that does not when [to_chars] writes nothing before it gives
    up; [clear]; [resize]; and a copy of the string into other storage,
    which also compares equal to it. *)
Theorem mutators_keep_terminator N s :
  valid_capacity N -> wf N s -> terminated s ->
  (forall (scratch : list byte) a chars,
      arg_chars a = Some chars ->
      exists s', append N scratch s a = Some s' /\ terminated s')
  /\ (forall (scratch : list byte) value,
        Z.of_nat (length (decimal_chars value)) <= N - m_size s ->
        exists s', append_int N scratch s value = Some s' /\ terminated s')
  /\ (forall value,
        exists s', append_int N [] s value = Some s' /\ terminated s')
  /\ (exists s', clear s = Some s' /\ terminated s')
  /\ (forall count ch, 0 <= count ->
        exists s', resize N s count ch = Some s' /\ terminated s')
  /\ (forall dst : list byte,
        Z.of_nat (length dst) = N + 1 ->
        exists t,
          copy_from dst s = Some t /\ terminated t
          /\ operator_eq t s = true).
Proof.
  intros HN Hwf Hterm. unfold terminated in *.
  split; [|split; [|split; [|split; [|split]]]].
  - intros scratch a chars Hchars.
    destruct (append_chars_step N scratch s a chars HN Hwf Hchars)
      as (s' & Happ & _ & _ & _ & Ht).
    exists s'. split; [done|]. by apply Ht.
  - intros scratch value Hfit.
    destruct (append_int_fits N scratch s value HN Hwf Hfit)
      as (s' & Happ & _ & _ & Ht & _).
    by exists s'.
  - intros value.
    destruct (append_keeps_terminated N s (arg_int value) HN Hwf Hterm)
      as (s' & Happ & _ & Ht); [done|].
    by exists s'.
  - destruct (clear_effect N s HN Hwf) as (s' & Hclr & Hsize & Ht & _).
    exists s'. split; [done|]. by rewrite Hsize.
  - intros count ch Hcount.
    destruct (resize_effect N s HN Hwf count ch Hcount)
      as (s' & Hres & Hsize & _ & _ & Ht & _).
    exists s'. split; [done|]. cbv zeta in *. by rewrite Hsize.
  - intros dst Hdst. pose proof Hwf as [Hsz Hl].
    destruct (copy_from_effect N dst s Hdst Hwf)
      as (t & Hcopy & Hsize & Hbytes & Hat & _ & Hwft).
    exists t. split; [done|]. split; [by rewrite Hat|].
    unfold operator_eq. apply sv_eqb_eq. unfold view. rewrite Hsize.
    replace (take (Z.to_nat (m_size s)) (m_data t))
      with (take (Z.to_nat (m_size s))
              (take (Z.to_nat (m_size s + 1)) (m_data t)))
      by (rewrite take_take; f_equal; lia).
    rewrite Hbytes, take_take. f_equal. lia.
Qed.

(** X19: the constructors from a view and from a terminated C string write
    their own terminator on storage that held anything: the result has the
    first [N] characters of the argument and ends in the terminator; only
    the null pointer leaves the storage unwritten. *)
Theorem constructors_from_characters N (init : list byte) :
  valid_capacity N -> Z.of_nat (length init) = N + 1 ->
  (forall sv : list byte,
      exists s,
        ctor_sv N init sv = Some s
        /\ view s = take (Z.to_nat N) sv
        /\ terminated s)
  /\ (forall (mem : list byte) (len : Z),
        strlen mem = Some len ->
        exists s,
          ctor_cstr N init (Some mem) = Some s
          /\ view s = take (Z.to_nat (Z.min len N)) mem
          /\ terminated s)
  /\ (forall s, ctor_cstr N init None = Some s -> m_data s = init).
Proof.
  intros HN Hinit. pose proof (raw_storage_wf N init HN Hinit) as Hraw.
  assert (Hsv : forall sv : list byte, exists s,
    ctor_sv N init sv = Some s
    /\ view s = take (Z.to_nat N) sv /\ terminated s).
  { intros sv. unfold ctor_sv.
    destruct (append_chars_step N [] _ (arg_sv sv) sv HN Hraw eq_refl)
      as (s & Happ & _ & _ & Hview & _).
    destruct (append_sv_effect N _ HN Hraw sv)
      as (s2 & Happ2 & _ & _ & Ht & _).
    simpl in Happ. assert (s2 = s) as -> by congruence.
    exists s. split; [done|]. split; [|done].
    rewrite Hview. simpl. f_equal. lia. }
  split; [done|]. split.
  - intros mem len Hlen. pose proof (strlen_bounds _ _ Hlen).
    unfold ctor_cstr. rewrite (append_cstr_as_sv N _ _ len Hlen).
    destruct (Hsv (take (Z.to_nat len) mem)) as (s & Hctor & Hview & Ht).
    exists s. split; [done|]. split; [|done].
    rewrite Hview, take_take. f_equal. unfold valid_capacity in HN. lia.
  - by intros s [= <-].
Qed.

(** ** More of [FixedBufAllocator] *)

Lemma allocate_fields sizeof_T a n :
  m_buffer (snd (allocate sizeof_T a n)) = m_buffer a
  /\ m_capacity (snd (allocate sizeof_T a n)) = m_capacity a.
Proof. unfold allocate. by case_match. Qed.

Lemma allocate_used_nonneg sizeof_T a n :
  0 <= m_used a -> 0 <= m_used (snd (allocate sizeof_T a n)).
Proof.
  intros H. unfold allocate. case_match; simpl; [|done].
  apply size_wrap_range.
Qed.

Lemma alloc_run_preserves sizeof_T (ops : list alloc_op) a :
  m_buffer (alloc_run sizeof_T a ops) = m_buffer a
  /\ m_capacity (alloc_run sizeof_T a ops) = m_capacity a
  /\ (0 <= m_used a <= m_capacity a ->
      0 <= m_used (alloc_run sizeof_T a ops) <= m_capacity a).
Proof.
  revert a. induction ops as [|o ops IH]; intros a; [done|].
  unfold alloc_run in *. simpl.
  destruct (IH (alloc_step sizeof_T a o)) as (Hb & Hc & Hu).
  destruct o as [n|p n]; simpl in *; [|done].
  destruct (allocate_fields sizeof_T a n) as [Hb' Hc'].
  rewrite Hb, Hc, Hb', Hc'. split; [done|]. split; [done|].
  intros Hused. rewrite Hc' in Hu. apply Hu. split.
  - apply allocate_used_nonneg. lia.
  - apply allocate_used_le_capacity. lia.
Qed.

(** X15: through any run of [allocate] and [deallocate] calls, wrapping or
    not, the allocator keeps its buffer and its capacity, and [m_used]
    stays between 0 and the capacity. *)
Theorem alloc_run_invariants sizeof_T (ops : list alloc_op) a :
  m_buffer (alloc_run sizeof_T a ops) = m_buffer a
  /\ m_capacity (alloc_run sizeof_T a ops) = m_capacity a
  /\ (0 <= m_used a <= m_capacity a ->
      0 <= m_used (alloc_run sizeof_T a ops) <= m_capacity a).
Proof. apply alloc_run_preserves. Qed.

(** A successful [allocate] whose arithmetic does not wrap. *)
Lemma allocate_success sizeof_T a n blk ofs :
  m_buffer a = addr blk ofs ->
  0 <= m_used a <= m_capacity a ->
  0 <= n * sizeof_T <= SIZE_MAX - m_capacity a ->
  fst (allocate sizeof_T a n) <> nullptr ->
  fst (allocate sizeof_T a n) = addr blk (ofs + m_used a)
  /\ m_used (snd (allocate sizeof_T a n)) = m_used a + n * sizeof_T
  /\ m_used a + n * sizeof_T <= m_capacity a.
Proof.
  intros Hbuf Hused Hn.
  destruct (allocate_in_range sizeof_T a n) as [Hfit Hnofit];
    [by rewrite Hbuf | lia | lia | lia |].
  destruct (Z.le_gt_cases (m_used a + n * sizeof_T) (m_capacity a)) as [H|H].
  - rewrite (Hfit H), Hbuf. simpl. by intros _.
  - rewrite (Hnofit H). simpl. done.
Qed.

Lemma alloc_run_monotone sizeof_T (ops : list alloc_op) a cap :
  m_capacity a = cap -> 0 <= m_used a <= cap ->
  Forall (fun o => match o with
                   | op_allocate n => 0 <= n * sizeof_T <= SIZE_MAX - cap
                   | op_deallocate _ _ => True
                   end) ops ->
  m_used a <= m_used (alloc_run sizeof_T a ops).
Proof.
  intros Hcap Hused Hops. revert a Hcap Hused.
  induction Hops as [|o ops Ho _ IH]; intros a Hcap Hused; [done|].
  unfold alloc_run in *. simpl.
  assert (Hstep : m_used a <= m_used (alloc_step sizeof_T a o)).
  { apply alloc_step_used_in_range; [lia|]. intros n ->. lia. }
  etransitivity; [exact Hstep|]. apply IH.
  - destruct o as [n|p n]; simpl; [|done].
    by destruct (allocate_fields sizeof_T a n) as [_ ->].
  - split; [etransitivity; [|exact Hstep]; lia|].
    destruct o as [n|p n]; unfold alloc_step;
      [ rewrite <- Hcap; apply allocate_used_le_capacity; lia
      | unfold deallocate; lia ].
Qed.

(** X16: as long as no request is larger than [SIZE_MAX - capacity] bytes,
    so that nothing wraps, two successful [allocate] calls on one allocator,
    with any calls between them, return blocks inside the buffer that do
    not overlap: the later block starts at or after the end of the earlier
    one and ends within the capacity. *)
Theorem allocations_do_not_overlap sizeof_T a (n1 n2 : Z)
    (ops : list alloc_op) blk ofs :
  m_buffer a = addr blk ofs ->
  0 <= m_used a <= m_capacity a ->
  0 <= n1 * sizeof_T <= SIZE_MAX - m_capacity a ->
  0 <= n2 * sizeof_T <= SIZE_MAX - m_capacity a ->
  Forall (fun o => match o with
                   | op_allocate n =>
                       0 <= n * sizeof_T <= SIZE_MAX - m_capacity a
                   | op_deallocate _ _ => True
                   end) ops ->
  let r1 := allocate sizeof_T a n1 in
  let r2 := allocate sizeof_T (alloc_run sizeof_T (snd r1) ops) n2 in
  fst r1 <> nullptr -> fst r2 <> nullptr ->
  exists o1 o2,
    fst r1 = addr blk o1 /\ fst r2 = addr blk o2
    /\ ofs <= o1
    /\ o1 + n1 * sizeof_T <= o2
    /\ o2 + n2 * sizeof_T <= ofs + m_capacity a.
Proof.
  intros Hbuf Hused Hn1 Hn2 Hops r1 r2 Hr1 Hr2. subst r1 r2.
  destruct (allocate_success sizeof_T a n1 blk ofs Hbuf Hused Hn1 Hr1)
    as (Hp1 & Hu1 & Hle1).
  destruct (allocate_fields sizeof_T a n1) as [Hb1 Hc1].
  set (a1 := snd (allocate sizeof_T a n1)) in *.
  destruct (alloc_run_preserves sizeof_T ops a1) as (Hb2 & Hc2 & Hu2).
  pose proof (alloc_run_monotone sizeof_T ops a1 (m_capacity a) Hc1
                ltac:(lia) Hops) as Hmono.
  set (a2 := alloc_run sizeof_T a1 ops) in *.
  destruct (allocate_success sizeof_T a2 n2 blk ofs) as (Hp2 & _ & Hle2);
    [congruence | rewrite Hc2; apply Hu2; lia
    | rewrite Hc2, Hc1; lia | done |].
  exists (ofs + m_used a), (ofs + m_used a2).
  rewrite Hc2, Hc1 in Hle2. repeat split; try done; lia.
Qed.

(** X17: a copy of an allocator, rebound or not, takes the offset by
    value: when the original and the copy both serve a request, they hand
    out the same address, and both go on with the same buffer. *)
Theorem allocator_copies_hand_out_the_same_block sizeof_T sizeof_U a (n m : Z) :
  let b := alloc_rebind a in
  let ra := allocate sizeof_T a n in
  let rb := allocate sizeof_U b m in
  fst ra <> nullptr -> fst rb <> nullptr ->
  fst ra = fst rb
  /\ fst ra = pointer_add (m_buffer a) (m_used a)
  /\ m_buffer (snd ra) = m_buffer (snd rb).
Proof.
  intros b ra rb Hra Hrb. subst b ra rb.
  destruct (allocate_fields sizeof_T a n) as [Hba _].
  destruct (allocate_fields sizeof_U (alloc_rebind a) m) as [Hbb _].
  assert (Heq : m_buffer (snd (allocate sizeof_T a n))
                = m_buffer (snd (allocate sizeof_U (alloc_rebind a) m)))
    by (by rewrite Hba, Hbb).
  unfold allocate in *. simpl in *.
  repeat case_match; simpl in *; done.
Qed.

(** X18: at the boundary.  With a buffer, [allocate(0)] always succeeds and
    changes nothing, also when the buffer is used up; a request for exactly
    the bytes that are left succeeds and uses the buffer up; and once it is
    used up every request for at least one byte is declined. *)
Theorem allocate_at_the_boundary sizeof_T a (n : Z) blk ofs :
  m_buffer a = addr blk ofs ->
  0 <= m_used a <= m_capacity a -> m_capacity a <= SIZE_MAX ->
  allocate sizeof_T a 0 = (addr blk (ofs + m_used a), a)
  /\ (n * sizeof_T = m_capacity a - m_used a ->
      fst (allocate sizeof_T a n) = addr blk (ofs + m_used a)
      /\ m_used (snd (allocate sizeof_T a n)) = m_capacity a)
  /\ (m_used a = m_capacity a ->
      0 < n * sizeof_T <= SIZE_MAX - m_capacity a ->
      allocate sizeof_T a n = (nullptr, a)).
Proof.
  intros Hbuf Hused Hcap. split; [|split].
  - destruct (allocate_in_range sizeof_T a 0) as [Hfit _];
      [by rewrite Hbuf | lia | lia | lia |].
    rewrite Hfit by lia. f_equal.
    + by rewrite Hbuf.
    + destruct a as [buf cap used]. simpl in *. f_equal. lia.
  - intros Hexact.
    destruct (allocate_in_range sizeof_T a n) as [Hfit _];
      [by rewrite Hbuf | lia | lia | lia |].
    rewrite Hfit by lia. rewrite Hbuf. simpl. split; [done|lia].
  - intros Hfull Hn.
    destruct (allocate_in_range sizeof_T a n) as [_ Hnofit];
      [by rewrite Hbuf | lia | lia | lia |].
    apply Hnofit. lia.
Qed.

(** ** The theorems of this part at concrete values *)

(** 12345 into an empty [StackString<32>]. *)
Lemma integer_fits_in_max_chars_witness :
  valid_capacity 32 /\ wf 32 blank32 /\ - 2 ^ 63 <= 12345 <= SIZE_MAX
  /\ Z.of_nat (length (decimal_chars 12345)) <= max_integer_decimal_chars.
Proof.
  assert (HN : valid_capacity 32) by done.
  assert (Hwf : wf 32 blank32) by done.
  assert (Hr : - 2 ^ 63 <= 12345 <= SIZE_MAX) by done.
  do 3 (split; [done|]).
  by destruct (integer_fits_in_max_chars 32 [] blank32 12345 HN Hwf Hr)
    as [H _].
Defined.

(** ['!'] appended to "abc" in a [StackString<8>]. *)
Lemma append_char_appends_or_drops_witness :
  valid_capacity 8 /\ wf 8 abc8
  /\ exists s', append_char 8 abc8 x21 = Some s' /\ m_size s' = 4.
Proof.
  assert (HN : valid_capacity 8) by done.
  assert (Hwf : wf 8 abc8) by done.
  do 2 (split; [done|]).
  destruct (append_char_appends_or_drops 8 abc8 x21 HN Hwf) as [_ Hroom].
  destruct Hroom as (s' & Happ & Hsize & _); [done|].
  by exists s'.
Defined.

(** 42 appended to "abc". *)
Lemma append_only_extends_witness :
  valid_capacity 8 /\ wf 8 abc8
  /\ is_Some (append 8 [] abc8 (arg_int 42)).
Proof.
  assert (HN : valid_capacity 8) by done.
  assert (Hwf : wf 8 abc8) by done.
  do 2 (split; [done|]).
  destruct (append_only_extends 8 [] abc8 (arg_int 42) HN Hwf) as [_ Hsome].
  apply Hsome. intros mem Hmem. discriminate Hmem.
Defined.

(** A chain of three appends to "abc". *)
Lemma append_chain_only_extends_witness :
  valid_capacity 8 /\ wf 8 abc8
  /\ append_all 8 [] abc8 [arg_char x21; arg_int 7; arg_sv digits10]
     = Some {| m_data := [x61; x62; x63; x21; x37; x31; x32; x33; x00];
               m_size := 8 |}
  /\ view abc8 `prefix_of` [x61; x62; x63; x21; x37; x31; x32; x33].
Proof.
  assert (HN : valid_capacity 8) by done.
  assert (Hwf : wf 8 abc8) by done.
  assert (Hrun : append_all 8 [] abc8 [arg_char x21; arg_int 7; arg_sv digits10]
     = Some {| m_data := [x61; x62; x63; x21; x37; x31; x32; x33; x00];
               m_size := 8 |}) by reflexivity.
  do 3 (split; [done|]).
  by destruct (append_chain_only_extends 8 [] _ HN abc8 _ Hwf Hrun)
    as (_ & Hpre & _).
Defined.

(** "abc" in a [StackString<8>] has room for five more characters. *)
Lemma available_decides_truncation_witness :
  valid_capacity 8 /\ wf 8 abc8 /\ available 8 abc8 = 8 - 3.
Proof.
  assert (HN : valid_capacity 8) by done.
  assert (Hwf : wf 8 abc8) by done.
  do 2 (split; [done|]).
  by destruct (available_decides_truncation 8 abc8 digits10 HN Hwf) as [H _].
Defined.

(** [StackString<8>(sv, 'b', nullptr)]. *)
Lemma ctor_variadic_concatenates_witness :
  valid_capacity 8 /\ Z.of_nat (length (replicate 9 xff)) = 8 + 1
  /\ Forall2 (fun a c => arg_chars a = Some c)
       [arg_sv [x61]; arg_char x62; arg_cstr None] [[x61]; [x62]; []]
  /\ exists s,
       ctor_variadic 8 [] (replicate 9 xff)
         [arg_sv [x61]; arg_char x62; arg_cstr None] = Some s
       /\ view s = [x61; x62].
Proof.
  assert (HN : valid_capacity 8) by done.
  assert (Hinit : Z.of_nat (length (replicate 9 xff)) = 8 + 1) by done.
  assert (Hargs : Forall2 (fun a c => arg_chars a = Some c)
       [arg_sv [x61]; arg_char x62; arg_cstr None] [[x61]; [x62]; []])
    by (repeat constructor).
  do 3 (split; [done|]).
  destruct (ctor_variadic_concatenates 8 [] _ _ _ HN Hinit Hargs)
    as (s & Hctor & Hview & _).
  by exists s.
Defined.

(** "ab" compared with itself. *)
Lemma operator_eq_compares_characters_witness :
  wf 2 ab /\ operator_eq ab ab = true.
Proof.
  assert (Hwf : wf 2 ab) by done. split; [done|].
  by destruct (operator_eq_compares_characters 2 ab ab Hwf Hwf)
    as (_ & _ & H & _).
Defined.

(** The view of "abc" into a [StackString<3>]. *)
Lemma view_round_trip_witness :
  wf 8 abc8 /\ valid_capacity 3
  /\ Z.of_nat (length [xff; xff; xff; xff]) = 3 + 1 /\ m_size abc8 <= 3
  /\ exists s',
       ctor_sv 3 [xff; xff; xff; xff] (view abc8) = Some s'
       /\ view s' = view abc8.
Proof.
  assert (Hwf : wf 8 abc8) by done.
  assert (HM : valid_capacity 3) by done.
  assert (Hinit : Z.of_nat (length [xff; xff; xff; xff]) = 3 + 1) by done.
  assert (Hfit : m_size abc8 <= 3) by done.
  do 4 (split; [done|]).
  destruct (view_round_trip 8 3 abc8 _ Hwf HM Hinit Hfit)
    as (s' & Hctor & _ & Hview & _).
  by exists s'.
Defined.

(** [c_str()] of "abc" and back. *)
Lemma c_str_round_trip_witness :
  valid_capacity 8 /\ wf 8 abc8 /\ terminated abc8
  /\ Z.of_nat (length (replicate 9 xff)) = 8 + 1
  /\ exists k s',
       strlen (c_str abc8) = Some k
       /\ ctor_cstr 8 (replicate 9 xff) (Some (c_str abc8)) = Some s'
       /\ view s' = take (Z.to_nat k) (view abc8).
Proof.
  assert (HN : valid_capacity 8) by done.
  assert (Hwf : wf 8 abc8) by done.
  assert (Ht : terminated abc8) by done.
  assert (Hinit : Z.of_nat (length (replicate 9 xff)) = 8 + 1) by done.
  do 4 (split; [done|]).
  destruct (c_str_round_trip 8 abc8 _ HN Hwf Ht Hinit)
    as (k & s' & Hk & _ & _ & Hctor & Hview & _).
  by exists k, s'.
Defined.

(** [resize(6)] on "abc". *)
Lemma resize_default_fill_hides_growth_witness :
  valid_capacity 8 /\ wf 8 abc8
  /\ Forall (fun c => c <> x00) (view abc8) /\ m_size abc8 < Z.min 6 8
  /\ exists s',
       resize 8 abc8 6 x00 = Some s'
       /\ size s' = 6 /\ strlen (c_str s') = Some 3.
Proof.
  assert (HN : valid_capacity 8) by done.
  assert (Hwf : wf 8 abc8) by done.
  assert (Hnz : Forall (fun c => c <> x00) (view abc8))
    by (repeat (constructor; [discriminate|]); constructor).
  assert (Hgrow : m_size abc8 < Z.min 6 8) by done.
  do 4 (split; [done|]).
  destruct (resize_default_fill_hides_growth 8 abc8 6 HN Hwf Hnz Hgrow)
    as (s' & Hres & Hsize & Hstrlen & _).
  by exists s'.
Defined.

(** "abc" into a [StackString<2>] and compared with "abc". *)
Lemma ctor_cstr_equals_argument_iff_fits_witness :
  valid_capacity 2 /\ Z.of_nat (length [xff; xff; xff]) = 2 + 1
  /\ strlen [x61; x62; x63; x00] = Some 3
  /\ exists s,
       ctor_cstr 2 [xff; xff; xff] (Some [x61; x62; x63; x00]) = Some s
       /\ m_size s = 2.
Proof.
  assert (HN : valid_capacity 2) by done.
  assert (Hinit : Z.of_nat (length [xff; xff; xff]) = 2 + 1) by done.
  assert (Hlen : strlen [x61; x62; x63; x00] = Some 3) by reflexivity.
  do 3 (split; [done|]).
  destruct (ctor_cstr_equals_argument_iff_fits 2 _ _ 3 HN Hinit Hlen)
    as (s & Hctor & Hsize & _).
  by exists s.
Defined.

(** [s = "c"] for the string "ab" at address 0, the temporary at address 1. *)
Lemma assign_cstr_replaces_contents_witness :
  valid_capacity 2
  /\ ({[ 0%nat := ab ]} : gmap nat StackString) !! 0%nat = Some ab
  /\ wf 2 ab
  /\ ({[ 0%nat := ab ]} : gmap nat StackString) !! 1%nat = None
  /\ Z.of_nat (length [xff; xff; xff]) = 2 + 1
  /\ strlen [x63; x00] = Some 1
  /\ exists t',
       assign_cstr 2 {[ 0%nat := ab ]} 0 1 [xff; xff; xff] (Some [x63; x00])
       = Some (<[0%nat := t']> {[ 0%nat := ab ]})
       /\ view t' = [x63].
Proof.
  assert (HN : valid_capacity 2) by done.
  assert (Hthis : ({[ 0%nat := ab ]} : gmap nat StackString) !! 0%nat
                  = Some ab) by done.
  assert (Hwf : wf 2 ab) by done.
  assert (Htmp : ({[ 0%nat := ab ]} : gmap nat StackString) !! 1%nat = None)
    by done.
  assert (Hinit : Z.of_nat (length [xff; xff; xff]) = 2 + 1) by done.
  assert (Hlen : strlen [x63; x00] = Some 1) by reflexivity.
  do 6 (split; [done|]).
  destruct (assign_cstr_replaces_contents 2 _ 0 1 ab _ _ 1
              HN Hthis Hwf Htmp Hinit Hlen)
    as (t' & Hassign & _ & Hview & _).
  by exists t'.
Defined.

(** The last character of "abc". *)
Lemma last_character_access_witness :
  valid_capacity 8 /\ wf 8 abc8 /\ 0 < m_size abc8
  /\ at_ abc8 (size_sub (size abc8) 1) = last (view abc8).
Proof.
  assert (HN : valid_capacity 8) by done.
  assert (Hwf : wf 8 abc8) by done.
  assert (Hpos : 0 < m_size abc8) by done.
  do 3 (split; [done|]).
  destruct (last_character_access 8 abc8 HN Hwf) as [Hlast _].
  by destruct (Hlast Hpos).
Defined.

(** A default-constructed [StackString<2>]. *)
Lemma reachable_state_bounds_witness :
  valid_capacity 2
  /\ reachable 2 {| m_data := [x00; xff; xff]; m_size := 0 |}
  /\ size {| m_data := [x00; xff; xff]; m_size := 0 |}
     + available 2 {| m_data := [x00; xff; xff]; m_size := 0 |} = 2.
Proof.
  assert (HN : valid_capacity 2) by done.
  assert (Hr : reachable 2 {| m_data := [x00; xff; xff]; m_size := 0 |})
    by (by apply (reach_ctor_default 2 [xff; xff; xff])).
  do 2 (split; [done|]).
  by destruct (reachable_state_bounds 2 _ HN Hr) as (_ & H & _).
Defined.

(** [clear] on "abc". *)
Lemma mutators_keep_terminator_witness :
  valid_capacity 8 /\ wf 8 abc8 /\ terminated abc8
  /\ exists s', clear abc8 = Some s' /\ terminated s'.
Proof.
  assert (HN : valid_capacity 8) by done.
  assert (Hwf : wf 8 abc8) by done.
  assert (Ht : terminated abc8) by done.
  do 3 (split; [done|]).
  by destruct (mutators_keep_terminator 8 abc8 HN Hwf Ht)
    as (_ & _ & _ & H & _).
Defined.

(** [StackString<2>(std::string_view("a"))]. *)
Lemma constructors_from_characters_witness :
  valid_capacity 2 /\ Z.of_nat (length [xff; xff; xff]) = 2 + 1
  /\ exists s, ctor_sv 2 [xff; xff; xff] [x61] = Some s /\ terminated s.
Proof.
  assert (HN : valid_capacity 2) by done.
  assert (Hinit : Z.of_nat (length [xff; xff; xff]) = 2 + 1) by done.
  do 2 (split; [done|]).
  destruct (constructors_from_characters 2 _ HN Hinit) as [Hsv _].
  destruct (Hsv [x61]) as (s & Hctor & _ & Ht).
  by exists s.
Defined.

(** Four bytes, two more in between, and four bytes again from 16. *)
Lemma allocations_do_not_overlap_witness :
  m_buffer alloc16 = addr 0 0
  /\ 0 <= m_used alloc16 <= m_capacity alloc16
  /\ 0 <= 4 * 1 <= SIZE_MAX - m_capacity alloc16
  /\ Forall (fun o => match o with
                      | op_allocate n =>
                          0 <= n * 1 <= SIZE_MAX - m_capacity alloc16
                      | op_deallocate _ _ => True
                      end) [op_deallocate nullptr 0; op_allocate 2]
  /\ fst (allocate 1 alloc16 4) <> nullptr
  /\ fst (allocate 1
            (alloc_run 1 (snd (allocate 1 alloc16 4))
               [op_deallocate nullptr 0; op_allocate 2]) 4) <> nullptr
  /\ exists o1 o2,
       fst (allocate 1 alloc16 4) = addr 0 o1
       /\ fst (allocate 1
                 (alloc_run 1 (snd (allocate 1 alloc16 4))
                    [op_deallocate nullptr 0; op_allocate 2]) 4) = addr 0 o2
       /\ o1 + 4 * 1 <= o2.
Proof.
  assert (Hbuf : m_buffer alloc16 = addr 0 0) by done.
  assert (Hused : 0 <= m_used alloc16 <= m_capacity alloc16) by done.
  assert (Hn : 0 <= 4 * 1 <= SIZE_MAX - m_capacity alloc16) by done.
  assert (Hops : Forall (fun o => match o with
                      | op_allocate n =>
                          0 <= n * 1 <= SIZE_MAX - m_capacity alloc16
                      | op_deallocate _ _ => True
                      end) [op_deallocate nullptr 0; op_allocate 2])
    by (repeat constructor; done).
  assert (Hr1 : fst (allocate 1 alloc16 4) <> nullptr) by done.
  assert (Hr2 : fst (allocate 1
            (alloc_run 1 (snd (allocate 1 alloc16 4))
               [op_deallocate nullptr 0; op_allocate 2]) 4) <> nullptr)
    by done.
  do 6 (split; [done|]).
  destruct (allocations_do_not_overlap 1 alloc16 4 4 _ 0 0
              Hbuf Hused Hn Hn Hops Hr1 Hr2)
    as (o1 & o2 & Hp1 & Hp2 & _ & Hdisj & _).
  by exists o1, o2.
Defined.

(** The allocator over 16 bytes and a copy rebound to 2-byte elements. *)
Lemma allocator_copies_hand_out_the_same_block_witness :
  fst (allocate 1 alloc16 4) <> nullptr
  /\ fst (allocate 2 (alloc_rebind alloc16) 4) <> nullptr
  /\ fst (allocate 1 alloc16 4) = fst (allocate 2 (alloc_rebind alloc16) 4).
Proof.
  assert (Ha : fst (allocate 1 alloc16 4) <> nullptr) by done.
  assert (Hb : fst (allocate 2 (alloc_rebind alloc16) 4) <> nullptr) by done.
  do 2 (split; [done|]).
  by destruct (allocator_copies_hand_out_the_same_block 1 2 alloc16 4 4 Ha Hb)
    as [H _].
Defined.

(** All 16 bytes at once. *)
Lemma allocate_at_the_boundary_witness :
  m_buffer alloc16 = addr 0 0
  /\ 0 <= m_used alloc16 <= m_capacity alloc16
  /\ m_capacity alloc16 <= SIZE_MAX
  /\ allocate 1 alloc16 0 = (addr 0 (0 + m_used alloc16), alloc16).
Proof.
  assert (Hbuf : m_buffer alloc16 = addr 0 0) by done.
  assert (Hused : 0 <= m_used alloc16 <= m_capacity alloc16) by done.
  assert (Hcap : m_capacity alloc16 <= SIZE_MAX) by done.
  do 3 (split; [done|]).
  by destruct (allocate_at_the_boundary 1 alloc16 16 0 0 Hbuf Hused Hcap)
    as [H _].
Defined.
